(** * Roller-coaster builder: the track store and its loop generator

    A shallow embedding of [client/src/lib/stores/useRollerCoaster.tsx].

    The store is a zustand store: one record of fields, mutated by
    operations that call [set] with a partial record (merged into the
    current state) or with a function from the current state to such a
    partial record.  Beside the store the module owns one mutable global,
    [pointCounter], from which point ids are minted.

    Numbers.  A TypeScript [number] is modelled as a real number ([R]):
    [+ - * /], [Math.sqrt], [Math.cos], [Math.sin] and [Math.PI] are the
    exact operations of [Stdlib.Reals]; the rounding of IEEE doubles is not
    modelled.  [pointCounter] only ever holds a natural number and is
    modelled as [nat].

    [THREE.Vector3] belongs to three.js, not to this repository; the few
    methods the store calls are transcribed from three.js in [Module THREE]. *)

From Stdlib Require Import Reals Lra Lia List String Bool Arith.
From Stdlib Require Import DecimalString DecimalNat FinFun Permutation.
Import ListNotations.

Open Scope R_scope.

(** ** three.js vectors *)

Module THREE.

Record Vector3 : Type := mkVector3 { x : R; y : R; z : R }.

(** [v.clone()]: a fresh vector with the same coordinates.  Values of the
    model are immutable, so a copy is the value itself. *)
Definition clone (v : Vector3) : Vector3 := mkVector3 (x v) (y v) (z v).

(** [a.sub(b)] *)
Definition sub (a b : Vector3) : Vector3 :=
  mkVector3 (x a - x b) (y a - y b) (z a - z b).

(** [v.length()]: [Math.sqrt(x*x + y*y + z*z)] *)
Definition length (v : Vector3) : R :=
  sqrt (x v * x v + y v * y v + z v * z v).

(** [v.multiplyScalar(s)] *)
Definition multiplyScalar (v : Vector3) (s : R) : Vector3 :=
  mkVector3 (x v * s) (y v * s) (z v * s).

(** [v.divideScalar(s)] is [v.multiplyScalar(1 / s)]. *)
Definition divideScalar (v : Vector3) (s : R) : Vector3 :=
  multiplyScalar v (1 / s).

(** JavaScript's [r || 1] on a number: [1] when [r] is zero. *)
Definition or_one (r : R) : R := if Req_dec_T r 0 then 1 else r.

(** [v.normalize()] is [v.divideScalar(v.length() || 1)]. *)
Definition normalize (v : Vector3) : Vector3 :=
  divideScalar v (or_one (length v)).

(** [new Vector3().crossVectors(a, b)] *)
Definition crossVectors (a b : Vector3) : Vector3 :=
  mkVector3 (y a * z b - z a * y b)
            (z a * x b - x a * z b)
            (x a * y b - y a * x b).

(** The assignment [v.y = r]. *)
Definition set_y (v : Vector3) (r : R) : Vector3 := mkVector3 (x v) r (z v).

End THREE.

(** ** The data model *)

Inductive CoasterMode : Type := build | ride | preview.

Record TrackPoint : Type := mkTrackPoint {
  id : string;
  position : THREE.Vector3;
  tilt : R
}.

Record RollerCoasterState : Type := mkState {
  mode : CoasterMode;
  trackPoints : list TrackPoint;
  selectedPointId : option string;
  rideProgress : R;
  isRiding : bool;
  rideSpeed : R;
  isDraggingPoint : bool;
  isAddingPoints : bool;
  isLooped : bool;
  hasChainLift : bool;
  showWoodSupports : bool;
  isNightMode : bool;
  cameraTarget : option THREE.Vector3
}.

(** The module's mutable state: the global [pointCounter] and the store. *)
Record World : Type := mkWorld {
  pointCounter : nat;
  store : RollerCoasterState
}.

(** The store as [create] builds it, with [let pointCounter = 0]. *)
Definition initialState : RollerCoasterState :=
  {| mode := build;
     trackPoints := [];
     selectedPointId := None;
     rideProgress := 0;
     isRiding := false;
     rideSpeed := 1;
     isDraggingPoint := false;
     isAddingPoints := true;
     isLooped := false;
     hasChainLift := true;
     showWoodSupports := false;
     isNightMode := false;
     cameraTarget := None |}.

Definition initialWorld : World :=
  {| pointCounter := 0; store := initialState |}.

(** ** Assigning one field of the store: the other fields are kept *)

Definition set_mode (v : CoasterMode) (s : RollerCoasterState) :=
  mkState v (trackPoints s) (selectedPointId s) (rideProgress s) (isRiding s)
    (rideSpeed s) (isDraggingPoint s) (isAddingPoints s) (isLooped s)
    (hasChainLift s) (showWoodSupports s) (isNightMode s) (cameraTarget s).

Definition set_trackPoints (v : list TrackPoint) (s : RollerCoasterState) :=
  mkState (mode s) v (selectedPointId s) (rideProgress s) (isRiding s)
    (rideSpeed s) (isDraggingPoint s) (isAddingPoints s) (isLooped s)
    (hasChainLift s) (showWoodSupports s) (isNightMode s) (cameraTarget s).

Definition set_selectedPointId (v : option string) (s : RollerCoasterState) :=
  mkState (mode s) (trackPoints s) v (rideProgress s) (isRiding s)
    (rideSpeed s) (isDraggingPoint s) (isAddingPoints s) (isLooped s)
    (hasChainLift s) (showWoodSupports s) (isNightMode s) (cameraTarget s).

Definition set_rideProgress (v : R) (s : RollerCoasterState) :=
  mkState (mode s) (trackPoints s) (selectedPointId s) v (isRiding s)
    (rideSpeed s) (isDraggingPoint s) (isAddingPoints s) (isLooped s)
    (hasChainLift s) (showWoodSupports s) (isNightMode s) (cameraTarget s).

Definition set_isRiding (v : bool) (s : RollerCoasterState) :=
  mkState (mode s) (trackPoints s) (selectedPointId s) (rideProgress s) v
    (rideSpeed s) (isDraggingPoint s) (isAddingPoints s) (isLooped s)
    (hasChainLift s) (showWoodSupports s) (isNightMode s) (cameraTarget s).

Definition set_rideSpeed (v : R) (s : RollerCoasterState) :=
  mkState (mode s) (trackPoints s) (selectedPointId s) (rideProgress s)
    (isRiding s) v (isDraggingPoint s) (isAddingPoints s) (isLooped s)
    (hasChainLift s) (showWoodSupports s) (isNightMode s) (cameraTarget s).

Definition set_isDraggingPoint (v : bool) (s : RollerCoasterState) :=
  mkState (mode s) (trackPoints s) (selectedPointId s) (rideProgress s)
    (isRiding s) (rideSpeed s) v (isAddingPoints s) (isLooped s)
    (hasChainLift s) (showWoodSupports s) (isNightMode s) (cameraTarget s).

Definition set_isAddingPoints (v : bool) (s : RollerCoasterState) :=
  mkState (mode s) (trackPoints s) (selectedPointId s) (rideProgress s)
    (isRiding s) (rideSpeed s) (isDraggingPoint s) v (isLooped s)
    (hasChainLift s) (showWoodSupports s) (isNightMode s) (cameraTarget s).

Definition set_isLooped (v : bool) (s : RollerCoasterState) :=
  mkState (mode s) (trackPoints s) (selectedPointId s) (rideProgress s)
    (isRiding s) (rideSpeed s) (isDraggingPoint s) (isAddingPoints s) v
    (hasChainLift s) (showWoodSupports s) (isNightMode s) (cameraTarget s).

Definition set_hasChainLift (v : bool) (s : RollerCoasterState) :=
  mkState (mode s) (trackPoints s) (selectedPointId s) (rideProgress s)
    (isRiding s) (rideSpeed s) (isDraggingPoint s) (isAddingPoints s)
    (isLooped s) v (showWoodSupports s) (isNightMode s) (cameraTarget s).

Definition set_showWoodSupports (v : bool) (s : RollerCoasterState) :=
  mkState (mode s) (trackPoints s) (selectedPointId s) (rideProgress s)
    (isRiding s) (rideSpeed s) (isDraggingPoint s) (isAddingPoints s)
    (isLooped s) (hasChainLift s) v (isNightMode s) (cameraTarget s).

Definition set_isNightMode (v : bool) (s : RollerCoasterState) :=
  mkState (mode s) (trackPoints s) (selectedPointId s) (rideProgress s)
    (isRiding s) (rideSpeed s) (isDraggingPoint s) (isAddingPoints s)
    (isLooped s) (hasChainLift s) (showWoodSupports s) v (cameraTarget s).

Definition set_cameraTarget (v : option THREE.Vector3) (s : RollerCoasterState) :=
  mkState (mode s) (trackPoints s) (selectedPointId s) (rideProgress s)
    (isRiding s) (rideSpeed s) (isDraggingPoint s) (isAddingPoints s)
    (isLooped s) (hasChainLift s) (showWoodSupports s) (isNightMode s) v.

(** ** zustand's [set] and [get]

    [set(partial)] replaces the state by [Object.assign({}, state, partial)]:
    the fields the object literal [partial] names are assigned, the others
    are kept.  An object literal is modelled as the list of its
    [key: value] entries. *)

Inductive Field : Type :=
| f_mode (v : CoasterMode)
| f_trackPoints (v : list TrackPoint)
| f_selectedPointId (v : option string)
| f_rideProgress (v : R)
| f_isRiding (v : bool)
| f_rideSpeed (v : R)
| f_isDraggingPoint (v : bool)
| f_isAddingPoints (v : bool)
| f_isLooped (v : bool)
| f_hasChainLift (v : bool)
| f_showWoodSupports (v : bool)
| f_isNightMode (v : bool)
| f_cameraTarget (v : option THREE.Vector3).

Definition assign (s : RollerCoasterState) (f : Field) : RollerCoasterState :=
  match f with
  | f_mode v => set_mode v s
  | f_trackPoints v => set_trackPoints v s
  | f_selectedPointId v => set_selectedPointId v s
  | f_rideProgress v => set_rideProgress v s
  | f_isRiding v => set_isRiding v s
  | f_rideSpeed v => set_rideSpeed v s
  | f_isDraggingPoint v => set_isDraggingPoint v s
  | f_isAddingPoints v => set_isAddingPoints v s
  | f_isLooped v => set_isLooped v s
  | f_hasChainLift v => set_hasChainLift v s
  | f_showWoodSupports v => set_showWoodSupports v s
  | f_isNightMode v => set_isNightMode v s
  | f_cameraTarget v => set_cameraTarget v s
  end.

(** [Object.assign({}, state, partial)] *)
Definition merge (partial : list Field) (state : RollerCoasterState) : RollerCoasterState :=
  fold_left assign partial state.

(** A whole state seen as an object literal: what a [set] callback hands
    back when it ends in [return state]. *)
Definition fields_of (s : RollerCoasterState) : list Field :=
  [f_mode (mode s); f_trackPoints (trackPoints s);
   f_selectedPointId (selectedPointId s); f_rideProgress (rideProgress s);
   f_isRiding (isRiding s); f_rideSpeed (rideSpeed s);
   f_isDraggingPoint (isDraggingPoint s); f_isAddingPoints (isAddingPoints s);
   f_isLooped (isLooped s); f_hasChainLift (hasChainLift s);
   f_showWoodSupports (showWoodSupports s); f_isNightMode (isNightMode s);
   f_cameraTarget (cameraTarget s)].

(** [get()] *)
Definition get (w : World) : RollerCoasterState := store w.

(** [set(partial)] *)
Definition set (partial : list Field) (w : World) : World :=
  {| pointCounter := pointCounter w; store := merge partial (store w) |}.

(** [set((state) => partial)] *)
Definition set_with (partial : RollerCoasterState -> list Field) (w : World) : World :=
  set (partial (store w)) w.

(** ** Ids *)

(** The template literal [`point-${n}`] for a natural number [n]. *)
Definition point_id (n : nat) : string :=
  ("point-" ++ NilEmpty.string_of_uint (Nat.to_uint n))%string.

(** [p.id === id] *)
Definition has_id (i : string) (p : TrackPoint) : bool := String.eqb (id p) i.

(** [Array.prototype.findIndex]: the index of the first element that
    satisfies [f]; [None] stands for JavaScript's [-1]. *)
Fixpoint findIndex {A : Type} (f : A -> bool) (l : list A) : option nat :=
  match l with
  | [] => None
  | a :: l' => if f a then Some O else option_map S (findIndex f l')
  end.

(** ** The store's operations

    Each operation is a function on [World].  [createLoopAtPoint] reads
    array elements by index; reading [.position] of an element that is not
    there throws a [TypeError] in JavaScript, so it returns an [option],
    [None] standing for the throw ([createLoopAtPoint_returns] below shows
    that it never happens). *)

Definition setMode (m : CoasterMode) : World -> World := set [f_mode m].

Definition setCameraTarget (target : option THREE.Vector3) : World -> World :=
  set [f_cameraTarget target].

Definition setIsDraggingPoint (dragging : bool) : World -> World :=
  set [f_isDraggingPoint dragging].

Definition setIsAddingPoints (adding : bool) : World -> World :=
  set [f_isAddingPoints adding].

Definition setIsLooped (looped : bool) : World -> World :=
  set [f_isLooped looped].

Definition setHasChainLift (hasChain : bool) : World -> World :=
  set [f_hasChainLift hasChain].

Definition setShowWoodSupports (show : bool) : World -> World :=
  set [f_showWoodSupports show].

Definition setIsNightMode (night : bool) : World -> World :=
  set [f_isNightMode night].

(** [++pointCounter]: the incremented counter is the value of the
    expression. *)
Definition incrementPointCounter (w : World) : World :=
  {| pointCounter := S (pointCounter w); store := store w |}.

Definition addTrackPoint (pos : THREE.Vector3) (w : World) : World :=
  let w := incrementPointCounter w in
  let i := point_id (pointCounter w) in
  set_with (fun state =>
    [f_trackPoints (trackPoints state ++ [mkTrackPoint i (THREE.clone pos) 0])]) w.

Definition updateTrackPoint (i : string) (pos : THREE.Vector3) : World -> World :=
  set_with (fun state =>
    [f_trackPoints
       (map (fun point =>
               if has_id i point
               then mkTrackPoint (id point) (THREE.clone pos) (tilt point)
               else point)
            (trackPoints state))]).

Definition updateTrackPointTilt (i : string) (t : R) : World -> World :=
  set_with (fun state =>
    [f_trackPoints
       (map (fun point =>
               if has_id i point
               then mkTrackPoint (id point) (position point) t
               else point)
            (trackPoints state))]).

(** [state.selectedPointId === id], where [selectedPointId] may be [null]. *)
Definition selected_is (i : string) (sel : option string) : bool :=
  match sel with
  | Some s => String.eqb s i
  | None => false
  end.

Definition removeTrackPoint (i : string) : World -> World :=
  set_with (fun state =>
    [f_trackPoints (filter (fun point => negb (has_id i point)) (trackPoints state));
     f_selectedPointId
       (if selected_is i (selectedPointId state) then None else selectedPointId state)]).

Definition selectPoint (i : option string) : World -> World :=
  set [f_selectedPointId i].

Definition clearTrack : World -> World :=
  set [f_trackPoints []; f_selectedPointId None; f_rideProgress 0; f_isRiding false].

Definition setRideProgress (progress : R) : World -> World :=
  set [f_rideProgress progress].

Definition setIsRiding (riding : bool) : World -> World :=
  set [f_isRiding riding].

Definition setRideSpeed (speed : R) : World -> World :=
  set [f_rideSpeed speed].

Definition startRide (w : World) : World :=
  let points := trackPoints (get w) in
  if (2 <=? List.length points)%nat
  then set [f_mode ride; f_isRiding true; f_rideProgress 0] w
  else w.

Definition stopRide : World -> World :=
  set [f_mode build; f_isRiding false; f_rideProgress 0].

(** ** The loop generator (lines 112-206) *)

(** The constants of lines 138, 139 and 177. *)
Definition loopRadius : R := 8.
Definition lateralOffset : R := loopRadius + 2.
Definition arcPoints : nat := 8.

(** Lines 122-132: the forward direction along the track at [pointIndex],
    where [pos] is the position of the point there.  [pointIndex > 0] is
    the successor case, and [before] is [pointIndex - 1]. *)
Definition forwardAt (points : list TrackPoint) (pointIndex : nat)
    (pos : THREE.Vector3) : option THREE.Vector3 :=
  match pointIndex with
  | O => Some (THREE.mkVector3 1 0 0)
  | S before =>
      match nth_error points before with
      | None => None
      | Some prevPoint =>
          let forward :=
            THREE.set_y (THREE.sub (THREE.clone pos) (position prevPoint)) 0 in
          let forward :=
            if Rlt_dec (THREE.length forward) 0.1
            then THREE.mkVector3 1 0 0
            else forward in
          Some (THREE.normalize forward)
      end
  end.

(** Lines 134-136: the left direction, perpendicular to [forward], in the
    horizontal plane. *)
Definition leftOf (forward : THREE.Vector3) : THREE.Vector3 :=
  let up := THREE.mkVector3 0 1 0 in
  THREE.normalize (THREE.crossVectors up forward).

(** STEP 1 (lines 142-150): a point of the incoming section, shifted left. *)
Definition shiftIncoming (left : THREE.Vector3) (p : TrackPoint) : TrackPoint :=
  mkTrackPoint (id p)
    (THREE.mkVector3
       (THREE.x (position p) + THREE.x left * lateralOffset)
       (THREE.y (position p))
       (THREE.z (position p) + THREE.z left * lateralOffset))
    (tilt p).

(** STEP 2 (lines 152-160): a point of the outgoing section, shifted right. *)
Definition shiftOutgoing (left : THREE.Vector3) (p : TrackPoint) : TrackPoint :=
  mkTrackPoint (id p)
    (THREE.mkVector3
       (THREE.x (position p) - THREE.x left * lateralOffset)
       (THREE.y (position p))
       (THREE.z (position p) - THREE.z left * lateralOffset))
    (tilt p).

(** Lines 182-192: the position the body of the [for] loop computes from
    [angle]. *)
Definition arcPosition (left : THREE.Vector3) (loopCenterX loopCenterY loopCenterZ : R)
    (angle : R) : THREE.Vector3 :=
  let lateralPos := cos angle * loopRadius in
  let heightPos := sin angle * loopRadius in
  THREE.mkVector3
    (loopCenterX + THREE.x left * lateralPos)
    (loopCenterY + heightPos)
    (loopCenterZ + THREE.z left * lateralPos).

(** Lines 179-194: the body of the [for] loop at index [i], with the id
    already minted. *)
Definition loopPointAt (left : THREE.Vector3) (loopCenterX loopCenterY loopCenterZ : R)
    (i : nat) (newId : string) : TrackPoint :=
  let t := INR i / INR arcPoints in
  let angle := t * PI * 2 in
  mkTrackPoint newId (arcPosition left loopCenterX loopCenterY loopCenterZ angle) 0.

(** [for (let i = 1; i < arcPoints; i++)], run over the indices it visits;
    every iteration increments [pointCounter] and pushes one point. *)
Fixpoint loopArc (left : THREE.Vector3) (loopCenterX loopCenterY loopCenterZ : R)
    (indices : list nat) (counter : nat) (loopPoints : list TrackPoint)
    : nat * list TrackPoint :=
  match indices with
  | [] => (counter, loopPoints)
  | i :: rest =>
      let counter := S counter in
      loopArc left loopCenterX loopCenterY loopCenterZ rest counter
        (loopPoints ++
         [loopPointAt left loopCenterX loopCenterY loopCenterZ i (point_id counter)])
  end.

(** Lines 117-202: what [createLoopAtPoint] computes once the guard has let
    the index pass, that is the new value of [pointCounter] and the new
    track.  [slice(0, n)] is [firstn n] and [slice(n)] is [skipn n]. *)
Definition loopAt (points : list TrackPoint) (pointIndex : nat) (counter : nat)
    : option (nat * list TrackPoint) :=
  match nth_error points pointIndex, nth_error points (pointIndex + 1) with
  | Some basePoint, Some nextPoint =>
      let pos := THREE.clone (position basePoint) in
      match forwardAt points pointIndex pos with
      | None => None
      | Some forward =>
          let left := leftOf forward in
          let incomingPoints :=
            map (shiftIncoming left) (firstn (pointIndex + 1) points) in
          let outgoingPoints :=
            map (shiftOutgoing left) (skipn (pointIndex + 1) points) in
          match nth_error incomingPoints (List.length incomingPoints - 1),
                nth_error outgoingPoints 0 with
          | Some entryPoint, Some exitPoint =>
              let entryPos := THREE.clone (position entryPoint) in
              let exitPos := THREE.clone (position exitPoint) in
              let loopCenterX := (THREE.x entryPos + THREE.x exitPos) / 2 in
              let loopCenterY := THREE.y entryPos + loopRadius in
              let loopCenterZ := (THREE.z entryPos + THREE.z exitPos) / 2 in
              let '(counter, loopPoints) :=
                loopArc left loopCenterX loopCenterY loopCenterZ
                  (seq 1 (arcPoints - 1)) counter [] in
              Some (counter, incomingPoints ++ loopPoints ++ outgoingPoints)
          | _, _ => None
          end
      end
  | _, _ => None
  end.

(** [createLoopAtPoint]: [set] is called with a callback, which returns
    [state] when the guard of line 115 rejects the index and
    [{ trackPoints: newTrackPoints }] otherwise; the callback is also what
    increments [pointCounter].  The guard compares integers, [length - 1]
    being [-1] on an empty track. *)
Definition createLoopAtPoint (i : string) (w : World) : option World :=
  let state := store w in
  match findIndex (has_id i) (trackPoints state) with
  | None => Some (set (fields_of state) w)
  | Some pointIndex =>
      if (Z.of_nat (List.length (trackPoints state)) - 1 <=? Z.of_nat pointIndex)%Z
      then Some (set (fields_of state) w)
      else
        match loopAt (trackPoints state) pointIndex (pointCounter w) with
        | None => None
        | Some (counter, newTrackPoints) =>
            Some (set [f_trackPoints newTrackPoints]
                    {| pointCounter := counter; store := state |})
        end
  end.

(** ** Sequences of operations *)

Inductive Op : Type :=
| SetMode (m : CoasterMode)
| SetCameraTarget (target : option THREE.Vector3)
| SetIsDraggingPoint (dragging : bool)
| SetIsAddingPoints (adding : bool)
| SetIsLooped (looped : bool)
| SetHasChainLift (hasChain : bool)
| SetShowWoodSupports (show : bool)
| SetIsNightMode (night : bool)
| AddTrackPoint (pos : THREE.Vector3)
| UpdateTrackPoint (i : string) (pos : THREE.Vector3)
| UpdateTrackPointTilt (i : string) (t : R)
| RemoveTrackPoint (i : string)
| CreateLoopAtPoint (i : string)
| SelectPoint (i : option string)
| ClearTrack
| SetRideProgress (progress : R)
| SetIsRiding (riding : bool)
| SetRideSpeed (speed : R)
| StartRide
| StopRide.

Definition exec (o : Op) (w : World) : option World :=
  match o with
  | SetMode m => Some (setMode m w)
  | SetCameraTarget t => Some (setCameraTarget t w)
  | SetIsDraggingPoint b => Some (setIsDraggingPoint b w)
  | SetIsAddingPoints b => Some (setIsAddingPoints b w)
  | SetIsLooped b => Some (setIsLooped b w)
  | SetHasChainLift b => Some (setHasChainLift b w)
  | SetShowWoodSupports b => Some (setShowWoodSupports b w)
  | SetIsNightMode b => Some (setIsNightMode b w)
  | AddTrackPoint pos => Some (addTrackPoint pos w)
  | UpdateTrackPoint i pos => Some (updateTrackPoint i pos w)
  | UpdateTrackPointTilt i t => Some (updateTrackPointTilt i t w)
  | RemoveTrackPoint i => Some (removeTrackPoint i w)
  | CreateLoopAtPoint i => createLoopAtPoint i w
  | SelectPoint i => Some (selectPoint i w)
  | ClearTrack => Some (clearTrack w)
  | SetRideProgress p => Some (setRideProgress p w)
  | SetIsRiding b => Some (setIsRiding b w)
  | SetRideSpeed s => Some (setRideSpeed s w)
  | StartRide => Some (startRide w)
  | StopRide => Some (stopRide w)
  end.

(** The states the store can be in: the initial one, and what any
    operation makes of a reachable one. *)
Inductive Reachable : World -> Prop :=
| Reachable_init : Reachable initialWorld
| Reachable_step : forall o w w',
    Reachable w -> exec o w = Some w' -> Reachable w'.

(** [n] calls of [addTrackPoint], with the positions given. *)
Definition addTrackPoints (ps : list THREE.Vector3) (w : World) : World :=
  fold_left (fun w p => addTrackPoint p w) ps w.

(** ** Vocabulary of the statements *)

(** The index an id resolves to: the first point that carries it. *)
Definition resolve (i : string) (points : list TrackPoint) : option nat :=
  findIndex (has_id i) points.

(** The point [p] moved by [d] along the horizontal part of [left]; its
    height, id and tilt are kept. *)
Definition translateAlong (left : THREE.Vector3) (d : R) (p : TrackPoint) : TrackPoint :=
  mkTrackPoint (id p)
    (THREE.mkVector3
       (THREE.x (position p) + d * THREE.x left)
       (THREE.y (position p))
       (THREE.z (position p) + d * THREE.z left))
    (tilt p).

(** The ids of a track, in order. *)
Definition ids (points : list TrackPoint) : list string := map id points.

(** The entry anchor: the position of the target point once shifted (the
    last point of the incoming section). *)
Definition entryAnchor (left : THREE.Vector3) (basePoint : TrackPoint) : THREE.Vector3 :=
  position (shiftIncoming left basePoint).

(** The exit anchor: the position of the target's successor once shifted
    (the first point of the outgoing section). *)
Definition exitAnchor (left : THREE.Vector3) (nextPoint : TrackPoint) : THREE.Vector3 :=
  position (shiftOutgoing left nextPoint).

(** [loopCenterX], [loopCenterY] and [loopCenterZ] as one vector. *)
Definition loopCenter (entryPos exitPos : THREE.Vector3) : THREE.Vector3 :=
  THREE.mkVector3
    ((THREE.x entryPos + THREE.x exitPos) / 2)
    (THREE.y entryPos + loopRadius)
    ((THREE.z entryPos + THREE.z exitPos) / 2).

(** The arc position at [angle] around [center]. *)
Definition arcAround (left center : THREE.Vector3) (angle : R) : THREE.Vector3 :=
  arcPosition left (THREE.x center) (THREE.y center) (THREE.z center) angle.

(** The loop point of index [i] around [center], minted when
    [pointCounter] was [counter] before the loop. *)
Definition loopPoint (left center : THREE.Vector3) (counter i : nat) : TrackPoint :=
  loopPointAt left (THREE.x center) (THREE.y center) (THREE.z center) i
    (point_id (counter + i)).

(** The loop points the [for] loop pushes, in order. *)
Definition loopPointsOf (left center : THREE.Vector3) (counter : nat) : list TrackPoint :=
  map (loopPoint left center counter) (seq 1 (arcPoints - 1)).

(** The track after a loop was inserted at [pointIndex]. *)
Definition splicedTrack (points : list TrackPoint) (pointIndex : nat)
    (left : THREE.Vector3) (loopPoints : list TrackPoint) : list TrackPoint :=
  map (translateAlong left 10) (firstn (pointIndex + 1) points)
  ++ loopPoints
  ++ map (translateAlong left (-10)) (skipn (pointIndex + 1) points).

(** The invariant behind the uniqueness of ids: no id occurs twice, and
    every id on the track was minted from a value [pointCounter] has had. *)
Definition minted (counter : nat) (i : string) : Prop :=
  exists k, (1 <= k <= counter)%nat /\ i = point_id k.

Definition unique_ids (w : World) : Prop :=
  NoDup (ids (trackPoints (store w))) /\
  forall i, In i (ids (trackPoints (store w))) -> minted (pointCounter w) i.

(** The track with the loop inserted at [pointIndex], between [basePoint]
    and [nextPoint], for the forward direction [forward]. *)
Definition loopedTrack (w : World) (pointIndex : nat)
    (basePoint nextPoint : TrackPoint) (forward : THREE.Vector3) : list TrackPoint :=
  let left := leftOf forward in
  splicedTrack (trackPoints (store w)) pointIndex left
    (loopPointsOf left
       (loopCenter (entryAnchor left basePoint) (exitAnchor left nextPoint))
       (pointCounter w)).

(** A loop was inserted at [pointIndex]: [basePoint], [nextPoint] and
    [forward] are the values [createLoopAtPoint] reads and computes, and
    its result is the looped track, with [pointCounter] advanced by the 7
    ids minted. *)
Definition loop_inserted (w : World) (i : string) (pointIndex : nat)
    (basePoint nextPoint : TrackPoint) (forward : THREE.Vector3) : Prop :=
  nth_error (trackPoints (store w)) pointIndex = Some basePoint /\
  nth_error (trackPoints (store w)) (pointIndex + 1) = Some nextPoint /\
  forwardAt (trackPoints (store w)) pointIndex (position basePoint) = Some forward /\
  createLoopAtPoint i w =
  Some {| pointCounter := pointCounter w + 7;
          store := set_trackPoints
                     (loopedTrack w pointIndex basePoint nextPoint forward)
                     (store w) |}.

(** The reading of the loop arc under which it starts at the entry anchor
    and passes through the exit anchor half a turn later. *)
Definition arc_meets_anchors (left : THREE.Vector3)
    (basePoint nextPoint : TrackPoint) : Prop :=
  let entryPos := entryAnchor left basePoint in
  let exitPos := exitAnchor left nextPoint in
  let center := loopCenter entryPos exitPos in
  arcAround left center 0 = entryPos /\ arcAround left center PI = exitPos.

(** ** Example stores *)

(** Three points on a straight line, added to the initial store. *)
Definition straight3 : World :=
  addTrackPoints
    [THREE.mkVector3 0 0 0; THREE.mkVector3 10 0 0; THREE.mkVector3 20 0 0]
    initialWorld.

(** The initial store after [selectPoint("ghost")]: the selection names an
    id that no point carries. *)
Definition staleSelection : World := selectPoint (Some "ghost"%string) initialWorld.

(** ** Runs of operations, and what an operation touches *)

(** The operations of [ops], one after the other. *)
Fixpoint run (ops : list Op) (w : World) : option World :=
  match ops with
  | [] => Some w
  | o :: rest =>
      match exec o w with
      | Some w' => run rest w'
      | None => None
      end
  end.

(** The operations whose [set] names [trackPoints]. *)
Definition writes_track (o : Op) : bool :=
  match o with
  | AddTrackPoint _ | UpdateTrackPoint _ _ | UpdateTrackPointTilt _ _
  | RemoveTrackPoint _ | CreateLoopAtPoint _ | ClearTrack => true
  | _ => false
  end.

(** Two entries of an object literal with the same key. *)
Definition same_field (f g : Field) : bool :=
  match f, g with
  | f_mode _, f_mode _
  | f_trackPoints _, f_trackPoints _
  | f_selectedPointId _, f_selectedPointId _
  | f_rideProgress _, f_rideProgress _
  | f_isRiding _, f_isRiding _
  | f_rideSpeed _, f_rideSpeed _
  | f_isDraggingPoint _, f_isDraggingPoint _
  | f_isAddingPoints _, f_isAddingPoints _
  | f_isLooped _, f_isLooped _
  | f_hasChainLift _, f_hasChainLift _
  | f_showWoodSupports _, f_showWoodSupports _
  | f_isNightMode _, f_isNightMode _
  | f_cameraTarget _, f_cameraTarget _ => true
  | _, _ => false
  end.

(** The selection names a point of the track, or nothing. *)
Definition selection_on_track (s : RollerCoasterState) : Prop :=
  match selectedPointId s with
  | None => True
  | Some i => In i (ids (trackPoints s))
  end.

(** ** The build camera ([client/src/components/game/BuildCamera.tsx])

    What the component renders from the store: nothing in ride mode
    (line 19), and otherwise one [OrbitControls] element, modelled as the
    record of the props it is given (lines 22-33). *)

Module BuildCamera.

Record OrbitControlsProps : Type := mkProps {
  enabled : bool;
  enablePan : bool;
  enableZoom : bool;
  enableRotate : bool;
  minDistance : R;
  maxDistance : R;
  maxPolarAngle : R;
  panSpeed : R;
  zoomSpeed : R
}.

Definition render (s : RollerCoasterState) : option OrbitControlsProps :=
  match mode s with
  | ride => None
  | _ =>
      Some {| enabled := negb (isDraggingPoint s);
              enablePan := true;
              enableZoom := true;
              enableRotate := true;
              minDistance := 2;
              maxDistance := 500;
              maxPolarAngle := PI / 2 - 0.05;
              panSpeed := 1.5;
              zoomSpeed := 1.2 |}
  end.

End BuildCamera.

(** * Basic facts *)

Lemma clone_eq (v : THREE.Vector3) : THREE.clone v = v.
Proof. destruct v; reflexivity. Qed.

Lemma world_eta (w : World) : mkWorld (pointCounter w) (store w) = w.
Proof. destruct w; reflexivity. Qed.

Lemma state_eta (s : RollerCoasterState) :
  mkState (mode s) (trackPoints s) (selectedPointId s) (rideProgress s)
    (isRiding s) (rideSpeed s) (isDraggingPoint s) (isAddingPoints s)
    (isLooped s) (hasChainLift s) (showWoodSupports s) (isNightMode s)
    (cameraTarget s) = s.
Proof. destruct s; reflexivity. Qed.

(** Handing the state back to [set] changes nothing. *)
Lemma set_fields_of (w : World) : set (fields_of (store w)) w = w.
Proof. destruct w as [c s]; destruct s; reflexivity. Qed.

Lemma has_id_true (i : string) (p : TrackPoint) : has_id i p = true <-> id p = i.
Proof. unfold has_id. apply String.eqb_eq. Qed.

Lemma has_id_false (i : string) (p : TrackPoint) : has_id i p = false <-> id p <> i.
Proof. unfold has_id. apply String.eqb_neq. Qed.

Section FindIndex.
Context {A : Type} (f : A -> bool).

Lemma findIndex_None (l : list A) :
  findIndex f l = None <-> forall a, In a l -> f a = false.
Proof.
  induction l as [|a l IH]; simpl.
  - split; [intros _ b []|reflexivity].
  - destruct (f a) eqn:Fa.
    + split; [discriminate|]. intros H. rewrite (H a) in Fa by auto. discriminate.
    + destruct (findIndex f l) as [k|]; simpl.
      * split; [discriminate|]. intros H.
        assert (N : forall b, In b l -> f b = false) by auto.
        apply IH in N. discriminate.
      * split; [|reflexivity]. intros _ b [<-|Hb]; [assumption|].
        apply IH; auto.
Qed.

Lemma findIndex_Some (l : list A) (k : nat) :
  findIndex f l = Some k ->
  exists a, nth_error l k = Some a /\ f a = true /\
            forall j b, (j < k)%nat -> nth_error l j = Some b -> f b = false.
Proof.
  revert k. induction l as [|a l IH]; simpl; intros k H; [discriminate|].
  destruct (f a) eqn:Fa.
  - injection H as <-. exists a. repeat split; auto. intros j b Hj. lia.
  - destruct (findIndex f l) as [k'|]; simpl in H; [|discriminate].
    injection H as <-. destruct (IH k' eq_refl) as (b & Hb & Fb & Hmin).
    exists b. repeat split; auto.
    intros [|j] c Hj Hc; simpl in Hc.
    + congruence.
    + apply (Hmin j); [lia|assumption].
Qed.

Lemma findIndex_lt (l : list A) (k : nat) :
  findIndex f l = Some k -> (k < List.length l)%nat.
Proof.
  intros H. destruct (findIndex_Some l k H) as (a & Ha & _).
  apply nth_error_Some. congruence.
Qed.
End FindIndex.

Lemma filter_all {A : Type} (f : A -> bool) (l : list A) :
  (forall a, In a l -> f a = true) -> filter f l = l.
Proof.
  induction l as [|a l IH]; simpl; intros H; [reflexivity|].
  rewrite (H a) by auto. f_equal. apply IH. auto.
Qed.

Lemma filter_idem {A : Type} (f : A -> bool) (l : list A) :
  filter f (filter f l) = filter f l.
Proof.
  apply filter_all. intros a Ha. apply filter_In in Ha. tauto.
Qed.

(** * The loop generator computes what the vocabulary names *)

Lemma shiftIncoming_translate (left : THREE.Vector3) (p : TrackPoint) :
  shiftIncoming left p = translateAlong left 10 p.
Proof.
  unfold shiftIncoming, translateAlong, lateralOffset, loopRadius.
  f_equal. f_equal; lra.
Qed.

Lemma shiftOutgoing_translate (left : THREE.Vector3) (p : TrackPoint) :
  shiftOutgoing left p = translateAlong left (-10) p.
Proof.
  unfold shiftOutgoing, translateAlong, lateralOffset, loopRadius.
  f_equal. f_equal; lra.
Qed.

Lemma loopArc_seq (left : THREE.Vector3) (cX cY cZ : R) (n : nat) :
  forall start counter acc,
    loopArc left cX cY cZ (seq start n) counter acc =
    ((counter + n)%nat,
     acc ++ map (fun j => loopPointAt left cX cY cZ (start + j)
                            (point_id (counter + 1 + j)))
                (seq 0 n)).
Proof.
  induction n as [|n IH]; intros start counter acc; simpl.
  - rewrite Nat.add_0_r, app_nil_r. reflexivity.
  - rewrite IH. f_equal; [lia|].
    rewrite <- app_assoc. simpl. f_equal.
    rewrite !Nat.add_0_r. replace (counter + 1)%nat with (S counter) by lia.
    f_equal. rewrite <- seq_shift, map_map.
    apply map_ext. intros j. f_equal; f_equal; lia.
Qed.

Lemma loopArc_loopPointsOf (left center : THREE.Vector3) (counter : nat) :
  loopArc left (THREE.x center) (THREE.y center) (THREE.z center)
    (seq 1 (arcPoints - 1)) counter [] =
  ((counter + 7)%nat, loopPointsOf left center counter).
Proof.
  rewrite loopArc_seq. unfold loopPointsOf, loopPoint, arcPoints. simpl.
  repeat (f_equal; try lia).
Qed.

Lemma forwardAt_defined (points : list TrackPoint) (pointIndex : nat) (pos : THREE.Vector3) :
  (pointIndex < List.length points)%nat ->
  exists forward, forwardAt points pointIndex pos = Some forward.
Proof.
  intros Hlt. destruct pointIndex as [|before]; simpl.
  - eexists; reflexivity.
  - destruct (nth_error points before) as [prevPoint|] eqn:E.
    + eexists; reflexivity.
    + apply nth_error_None in E. lia.
Qed.

(** When the guard lets the index pass, [createLoopAtPoint] returns, and
    its result is the spliced track with [pointCounter] advanced by 7. *)
Lemma createLoopAtPoint_success (w : World) (i : string) (pointIndex : nat) :
  resolve i (trackPoints (store w)) = Some pointIndex ->
  (pointIndex + 1 < List.length (trackPoints (store w)))%nat ->
  exists basePoint nextPoint forward,
    loop_inserted w i pointIndex basePoint nextPoint forward.
Proof.
  intros Hres Hlt. unfold resolve in Hres. unfold loop_inserted, loopedTrack.
  set (points := trackPoints (store w)) in *.
  destruct (nth_error points pointIndex) as [basePoint|] eqn:Ebase;
    [|apply nth_error_None in Ebase; lia].
  destruct (nth_error points (pointIndex + 1)) as [nextPoint|] eqn:Enext;
    [|apply nth_error_None in Enext; lia].
  destruct (forwardAt_defined points pointIndex (position basePoint)) as [forward Efwd];
    [lia|].
  exists basePoint, nextPoint, forward. repeat split; try assumption.
  unfold createLoopAtPoint. fold points. rewrite Hres.
  replace (Z.of_nat (List.length points) - 1 <=? Z.of_nat pointIndex)%Z with false
    by (symmetry; apply Z.leb_gt; lia).
  unfold loopAt. rewrite Ebase, Enext, clone_eq, Efwd.
  set (left := leftOf forward).
  rewrite length_map, length_firstn, Nat.min_l by lia.
  replace (pointIndex + 1 - 1)%nat with pointIndex by lia.
  rewrite !nth_error_map, nth_error_firstn, nth_error_skipn.
  replace (pointIndex <? pointIndex + 1)%nat with true
    by (symmetry; apply Nat.ltb_lt; lia).
  rewrite Nat.add_0_r, Ebase, Enext. simpl option_map. cbv iota.
  rewrite !clone_eq.
  change (position (shiftIncoming left basePoint)) with (entryAnchor left basePoint).
  change (position (shiftOutgoing left nextPoint)) with (exitAnchor left nextPoint).
  set (center := loopCenter (entryAnchor left basePoint) (exitAnchor left nextPoint)).
  change ((THREE.x (entryAnchor left basePoint) + THREE.x (exitAnchor left nextPoint)) / 2)
    with (THREE.x center).
  change (THREE.y (entryAnchor left basePoint) + loopRadius) with (THREE.y center).
  change ((THREE.z (entryAnchor left basePoint) + THREE.z (exitAnchor left nextPoint)) / 2)
    with (THREE.z center).
  rewrite loopArc_loopPointsOf.
  unfold splicedTrack.
  rewrite (map_ext _ _ (shiftIncoming_translate left)).
  rewrite (map_ext _ _ (shiftOutgoing_translate left)).
  reflexivity.
Qed.

(** The guard, read on the index the id resolves to. *)
Lemma createLoopAtPoint_guard (w : World) (i : string) :
  (forall pointIndex, resolve i (trackPoints (store w)) = Some pointIndex ->
     (List.length (trackPoints (store w)) <= pointIndex + 1)%nat) ->
  createLoopAtPoint i w = Some w.
Proof.
  intros H. unfold createLoopAtPoint. unfold resolve in H.
  destruct (findIndex (has_id i) (trackPoints (store w))) as [pointIndex|];
    [|rewrite set_fields_of; reflexivity].
  specialize (H pointIndex eq_refl).
  replace (Z.of_nat (List.length (trackPoints (store w))) - 1 <=? Z.of_nat pointIndex)%Z
    with true by (symmetry; apply Z.leb_le; lia).
  rewrite set_fields_of. reflexivity.
Qed.

(** * Ids stay unique *)

Lemma point_id_inj (a b : nat) : point_id a = point_id b -> a = b.
Proof.
  unfold point_id. simpl. intros H. injection H as H.
  apply (f_equal NilEmpty.uint_of_string) in H.
  rewrite !NilEmpty.usu in H. injection H as H.
  apply (f_equal Nat.of_uint) in H.
  rewrite !Unsigned.of_to in H. exact H.
Qed.

Lemma minted_mono (c c' : nat) (i : string) :
  (c <= c')%nat -> minted c i -> minted c' i.
Proof. intros Hle (k & Hk & ->). exists k. split; [lia|reflexivity]. Qed.

Lemma minted_next_fresh (c k : nat) (points : list TrackPoint) :
  (forall i, In i (ids points) -> minted c i) ->
  (c < k)%nat -> ~ In (point_id k) (ids points).
Proof.
  intros Hm Hk Hin. destruct (Hm _ Hin) as (j & Hj & E).
  apply point_id_inj in E. lia.
Qed.

Lemma ids_app (l1 l2 : list TrackPoint) : ids (l1 ++ l2) = ids l1 ++ ids l2.
Proof. apply map_app. Qed.

Lemma ids_map_same (f : TrackPoint -> TrackPoint) (l : list TrackPoint) :
  (forall p, id (f p) = id p) -> ids (map f l) = ids l.
Proof.
  intros H. unfold ids. rewrite map_map. apply map_ext. exact H.
Qed.

Lemma ids_filter_incl (f : TrackPoint -> bool) (l : list TrackPoint) (i : string) :
  In i (ids (filter f l)) -> In i (ids l).
Proof.
  unfold ids. rewrite !in_map_iff. intros (p & E & Hp).
  apply filter_In in Hp. exists p. tauto.
Qed.

Lemma ids_filter_NoDup (f : TrackPoint -> bool) (l : list TrackPoint) :
  NoDup (ids l) -> NoDup (ids (filter f l)).
Proof.
  induction l as [|p l IH]; simpl; intros H; [constructor|].
  inversion H as [|? ? Hnot Hrest]; subst.
  destruct (f p); [|auto]. simpl. constructor; [|auto].
  intros Hin. apply Hnot. eapply ids_filter_incl; eassumption.
Qed.

Lemma ids_loopPointsOf (left center : THREE.Vector3) (counter : nat) :
  ids (loopPointsOf left center counter) =
  map point_id (seq (counter + 1) (arcPoints - 1)).
Proof.
  unfold ids, loopPointsOf, arcPoints. simpl.
  repeat (f_equal; try lia).
Qed.

Lemma ids_splicedTrack (points : list TrackPoint) (pointIndex : nat)
    (left : THREE.Vector3) (loopPoints : list TrackPoint) :
  ids (splicedTrack points pointIndex left loopPoints) =
  ids (firstn (pointIndex + 1) points) ++ ids loopPoints
  ++ ids (skipn (pointIndex + 1) points).
Proof.
  unfold splicedTrack. rewrite !ids_app.
  rewrite !ids_map_same by reflexivity. reflexivity.
Qed.

Lemma NoDup_point_ids (start len : nat) : NoDup (map point_id (seq start len)).
Proof.
  apply Injective_map_NoDup; [|apply seq_NoDup].
  intros a b. apply point_id_inj.
Qed.

Lemma NoDup_insert_middle {A : Type} (l1 m l2 : list A) :
  NoDup (l1 ++ l2) -> NoDup m ->
  (forall a, In a m -> ~ In a (l1 ++ l2)) ->
  NoDup (l1 ++ m ++ l2).
Proof.
  intros H12 Hm Hdisj.
  apply (Permutation_NoDup (l := m ++ l1 ++ l2)).
  - apply Permutation_app_swap_app.
  - apply NoDup_app; assumption.
Qed.

(** The loop points' ids are new to the track when the track's ids were
    all minted before. *)
Lemma loop_ids_fresh (points : list TrackPoint) (counter : nat)
    (left center : THREE.Vector3) (i : string) :
  (forall j, In j (ids points) -> minted counter j) ->
  In i (ids (loopPointsOf left center counter)) -> ~ In i (ids points).
Proof.
  intros Hm Hin. rewrite ids_loopPointsOf in Hin.
  apply in_map_iff in Hin. destruct Hin as (k & <- & Hk).
  apply in_seq in Hk. apply (minted_next_fresh counter); [assumption|lia].
Qed.

Lemma unique_ids_set_trackPoints_same (w : World) (c : nat) (points : list TrackPoint)
    (s : RollerCoasterState) :
  unique_ids w -> (pointCounter w <= c)%nat ->
  ids points = ids (trackPoints (store w)) ->
  trackPoints s = points ->
  unique_ids {| pointCounter := c; store := s |}.
Proof.
  intros [Hnd Hm] Hc E Es. unfold unique_ids. simpl. rewrite Es, E. split; [assumption|].
  intros i Hi. eapply minted_mono; [eassumption|auto].
Qed.

Lemma unique_ids_createLoopAtPoint (w w' : World) (i : string) :
  unique_ids w -> createLoopAtPoint i w = Some w' -> unique_ids w'.
Proof.
  intros Hu H.
  destruct (resolve i (trackPoints (store w))) as [pointIndex|] eqn:Eres.
  - destruct (Nat.lt_ge_cases (pointIndex + 1) (List.length (trackPoints (store w))))
      as [Hlt|Hge].
    + destruct (createLoopAtPoint_success w i pointIndex Eres Hlt)
        as (basePoint & nextPoint & forward & _ & _ & _ & E).
      rewrite E in H. injection H as <-.
      destruct Hu as [Hnd Hm]. unfold unique_ids.
      cbn [store pointCounter trackPoints set_trackPoints]. unfold loopedTrack.
      rewrite ids_splicedTrack.
      set (points := trackPoints (store w)) in *.
      assert (Esplit : ids (firstn (pointIndex + 1) points)
                       ++ ids (skipn (pointIndex + 1) points) = ids points)
        by (rewrite <- ids_app, firstn_skipn; reflexivity).
      split.
      * apply NoDup_insert_middle.
        -- rewrite Esplit. assumption.
        -- rewrite ids_loopPointsOf. apply NoDup_point_ids.
        -- intros j Hj. rewrite Esplit. eapply loop_ids_fresh; eassumption.
      * intros j Hj. rewrite !in_app_iff in Hj.
        assert (Hold : In j (ids points) -> minted (pointCounter w + 7) j)
          by (intros Hin; apply (minted_mono (pointCounter w)); [lia|auto]).
        destruct Hj as [Hj|[Hj|Hj]].
        -- apply Hold. rewrite <- Esplit. apply in_or_app. auto.
        -- rewrite ids_loopPointsOf in Hj. apply in_map_iff in Hj.
           destruct Hj as (k & <- & Hk). apply in_seq in Hk. unfold arcPoints in Hk.
           exists k. split; [lia|reflexivity].
        -- apply Hold. rewrite <- Esplit. apply in_or_app. auto.
    + rewrite createLoopAtPoint_guard in H
        by (intros k Ek; rewrite Eres in Ek; injection Ek as <-; lia).
      injection H as <-. assumption.
  - rewrite createLoopAtPoint_guard in H
      by (intros k Ek; rewrite Eres in Ek; discriminate).
    injection H as <-. assumption.
Qed.

Lemma unique_ids_initial : unique_ids initialWorld.
Proof. split; simpl; [constructor|intros i []]. Qed.

Lemma unique_ids_addTrackPoint (w : World) (pos : THREE.Vector3) :
  unique_ids w -> unique_ids (addTrackPoint pos w).
Proof.
  intros [Hnd Hm]. unfold unique_ids, addTrackPoint. simpl.
  rewrite ids_app. simpl. split.
  - apply NoDup_app; [assumption|repeat constructor; intros []|].
    intros i Hi [<-|[]]. revert Hi.
    apply (minted_next_fresh (pointCounter w)); [assumption|lia].
  - intros i Hi. apply in_app_iff in Hi. destruct Hi as [Hi|[<-|[]]].
    + apply (minted_mono (pointCounter w)); [lia|auto].
    + exists (S (pointCounter w)). split; [lia|reflexivity].
Qed.

Lemma unique_ids_removeTrackPoint (w : World) (i : string) :
  unique_ids w -> unique_ids (removeTrackPoint i w).
Proof.
  intros [Hnd Hm]. unfold unique_ids, removeTrackPoint. simpl. split.
  - apply ids_filter_NoDup. assumption.
  - intros j Hj. apply Hm. eapply ids_filter_incl. eassumption.
Qed.

Ltac same_ids w :=
  apply (unique_ids_set_trackPoints_same w (pointCounter w)
           (trackPoints (store w)));
  [assumption | lia | reflexivity | reflexivity].

Lemma unique_ids_exec (o : Op) (w w' : World) :
  unique_ids w -> exec o w = Some w' -> unique_ids w'.
Proof.
  intros Hu H. destruct o; simpl in H;
    try (injection H as <-);
    try solve [same_ids w].
  - apply unique_ids_addTrackPoint. assumption.
  - eapply (unique_ids_set_trackPoints_same w (pointCounter w));
      [assumption | lia | | reflexivity].
    apply ids_map_same. intros p. destruct (has_id i p); reflexivity.
  - eapply (unique_ids_set_trackPoints_same w (pointCounter w));
      [assumption | lia | | reflexivity].
    apply ids_map_same. intros p. destruct (has_id i p); reflexivity.
  - apply unique_ids_removeTrackPoint. assumption.
  - eapply unique_ids_createLoopAtPoint; eassumption.
  - split; simpl; [constructor|intros i []].
  - unfold startRide. destruct (2 <=? _)%nat; [same_ids w|assumption].
Qed.

Lemma Reachable_unique_ids (w : World) : Reachable w -> unique_ids w.
Proof.
  induction 1 as [|o w w' _ IH E].
  - apply unique_ids_initial.
  - eapply unique_ids_exec; eassumption.
Qed.

(** Every operation returns: nothing throws. *)
Lemma createLoopAtPoint_returns (w : World) (i : string) :
  exists w', createLoopAtPoint i w = Some w'.
Proof.
  destruct (resolve i (trackPoints (store w))) as [pointIndex|] eqn:Eres.
  - destruct (Nat.lt_ge_cases (pointIndex + 1) (List.length (trackPoints (store w))))
      as [Hlt|Hge].
    + destruct (createLoopAtPoint_success w i pointIndex Eres Hlt)
        as (? & ? & ? & _ & _ & _ & E).
      eexists. exact E.
    + exists w. apply createLoopAtPoint_guard.
      intros k Ek. rewrite Eres in Ek. injection Ek as <-. lia.
  - exists w. apply createLoopAtPoint_guard.
    intros k Ek. rewrite Eres in Ek. discriminate.
Qed.

Lemma exec_returns (o : Op) (w : World) : exists w', exec o w = Some w'.
Proof.
  destruct o; simpl; try (eexists; reflexivity).
  apply createLoopAtPoint_returns.
Qed.

Lemma length_addTrackPoints (ps : list THREE.Vector3) (w : World) :
  List.length (trackPoints (store (addTrackPoints ps w))) =
  (List.length (trackPoints (store w)) + List.length ps)%nat.
Proof.
  revert w. induction ps as [|p ps IH]; intros w; simpl.
  - lia.
  - unfold addTrackPoints in IH. rewrite IH. simpl. rewrite length_app. simpl. lia.
Qed.

Lemma Reachable_addTrackPoints (ps : list THREE.Vector3) (w : World) :
  Reachable w -> Reachable (addTrackPoints ps w).
Proof.
  revert w. induction ps as [|p ps IH]; intros w Hw; simpl; [assumption|].
  apply IH. apply (Reachable_step (AddTrackPoint p) w); [assumption|reflexivity].
Qed.

Lemma resolve_None (i : string) (points : list TrackPoint) :
  resolve i points = None <-> forall p, In p points -> id p <> i.
Proof.
  unfold resolve. rewrite findIndex_None. split; intros H p Hp.
  - apply has_id_false. auto.
  - apply has_id_false. auto.
Qed.

Lemma Reachable_straight3 : Reachable straight3.
Proof. apply Reachable_addTrackPoints. constructor. Qed.

Lemma Reachable_staleSelection : Reachable staleSelection.
Proof.
  apply (Reachable_step (SelectPoint (Some "ghost"%string)) initialWorld);
    [constructor|reflexivity].
Qed.

(** * The claims *)

(** ** C7: [startRide] *)

(** C7.  On a track with at least 2 points [startRide] sets [mode] to
    [ride], [isRiding] to [true] and [rideProgress] to [0]; on a track with
    0 or 1 points it leaves the whole state as it was. *)
Theorem startRide_spec (w : World) :
  ((2 <= List.length (trackPoints (store w)))%nat ->
     mode (store (startRide w)) = ride /\
     isRiding (store (startRide w)) = true /\
     rideProgress (store (startRide w)) = 0) /\
  ((List.length (trackPoints (store w)) < 2)%nat -> startRide w = w).
Proof.
  unfold startRide, get. cbv zeta. split; intros H.
  - replace (2 <=? List.length (trackPoints (store w)))%nat with true
      by (symmetry; apply Nat.leb_le; exact H).
    repeat split.
  - replace (2 <=? List.length (trackPoints (store w)))%nat with false
      by (symmetry; apply Nat.leb_gt; exact H).
    reflexivity.
Qed.

Lemma startRide_spec_witness :
  (mode (store (startRide straight3)) = ride /\
   isRiding (store (startRide straight3)) = true /\
   rideProgress (store (startRide straight3)) = 0) /\
  startRide initialWorld = initialWorld.
Proof.
  split.
  - apply (proj1 (startRide_spec straight3)). simpl. lia.
  - apply (proj2 (startRide_spec initialWorld)). simpl. lia.
Defined.

(** ** C8 and C10: [clearTrack] *)

(** C8.  Whatever the state was, after [clearTrack] the track is empty,
    nothing is selected, [rideProgress] is [0] and [isRiding] is [false]. *)
Theorem clearTrack_resets (w : World) :
  trackPoints (store (clearTrack w)) = [] /\
  selectedPointId (store (clearTrack w)) = None /\
  rideProgress (store (clearTrack w)) = 0 /\
  isRiding (store (clearTrack w)) = false.
Proof. repeat split. Qed.

(** C10.  [clearTrack] keeps every other field: [mode], [rideSpeed],
    [isDraggingPoint], [isAddingPoints], [isLooped], [hasChainLift],
    [showWoodSupports], [isNightMode] and [cameraTarget]; clearing the
    track while riding leaves [mode] at [ride], it does not go back to
    [build]. *)
Theorem clearTrack_frame (w : World) :
  mode (store (clearTrack w)) = mode (store w) /\
  rideSpeed (store (clearTrack w)) = rideSpeed (store w) /\
  isDraggingPoint (store (clearTrack w)) = isDraggingPoint (store w) /\
  isAddingPoints (store (clearTrack w)) = isAddingPoints (store w) /\
  isLooped (store (clearTrack w)) = isLooped (store w) /\
  hasChainLift (store (clearTrack w)) = hasChainLift (store w) /\
  showWoodSupports (store (clearTrack w)) = showWoodSupports (store w) /\
  isNightMode (store (clearTrack w)) = isNightMode (store w) /\
  cameraTarget (store (clearTrack w)) = cameraTarget (store w) /\
  (mode (store w) = ride ->
     mode (store (clearTrack w)) = ride /\ mode (store (clearTrack w)) <> build).
Proof.
  repeat split; simpl; try assumption. congruence.
Qed.

Lemma clearTrack_frame_witness :
  mode (store (clearTrack (startRide straight3))) = ride /\
  mode (store (clearTrack (startRide straight3))) <> build.
Proof.
  apply (clearTrack_frame (startRide straight3)). reflexivity.
Defined.

(** ** C2: the guard of [createLoopAtPoint] *)

(** C2.  When no point carries the id, or the id resolves to the last
    point of the sequence, [createLoopAtPoint] returns and leaves the whole
    state, the track included, as it was. *)
Theorem createLoopAtPoint_rejects (w : World) (i : string) :
  (forall p, In p (trackPoints (store w)) -> id p <> i) \/
  (exists pointIndex,
     resolve i (trackPoints (store w)) = Some pointIndex /\
     S pointIndex = List.length (trackPoints (store w))) ->
  createLoopAtPoint i w = Some w.
Proof.
  intros [Hnone|(pointIndex & Hres & Hlast)]; apply createLoopAtPoint_guard.
  - apply resolve_None in Hnone. intros k Ek. congruence.
  - intros k Ek. rewrite Hres in Ek. injection Ek as <-. lia.
Qed.

Lemma createLoopAtPoint_rejects_witness :
  createLoopAtPoint "point-9" straight3 = Some straight3 /\
  createLoopAtPoint "point-3" straight3 = Some straight3.
Proof.
  split.
  - apply (createLoopAtPoint_rejects straight3 "point-9"). left.
    apply resolve_None. reflexivity.
  - apply (createLoopAtPoint_rejects straight3 "point-3"). right.
    exists 2%nat. split; reflexivity.
Defined.

(** ** C9: [removeTrackPoint] *)

Lemma selected_is_true (i : string) (sel : option string) :
  selected_is i sel = true <-> sel = Some i.
Proof.
  destruct sel as [s|]; simpl.
  - rewrite String.eqb_eq. split; congruence.
  - split; discriminate.
Qed.

Lemma selected_is_false (i : string) (sel : option string) :
  selected_is i sel = false <-> sel <> Some i.
Proof.
  rewrite <- selected_is_true. destruct (selected_is i sel); split; congruence.
Qed.

Lemma not_in_ids (i : string) (points : list TrackPoint) :
  ~ In i (ids points) -> forall p, In p points -> negb (has_id i p) = true.
Proof.
  intros Hnot p Hp. apply negb_true_iff, has_id_false. intros <-.
  apply Hnot. unfold ids. apply in_map. exact Hp.
Qed.

(** [removeTrackPoint] with the merge carried out. *)
Lemma removeTrackPoint_eq (i : string) (w : World) :
  removeTrackPoint i w =
  {| pointCounter := pointCounter w;
     store :=
       mkState (mode (store w))
         (filter (fun point => negb (has_id i point)) (trackPoints (store w)))
         (if selected_is i (selectedPointId (store w))
          then None else selectedPointId (store w))
         (rideProgress (store w)) (isRiding (store w)) (rideSpeed (store w))
         (isDraggingPoint (store w)) (isAddingPoints (store w))
         (isLooped (store w)) (hasChainLift (store w))
         (showWoodSupports (store w)) (isNightMode (store w))
         (cameraTarget (store w)) |}.
Proof. reflexivity. Qed.

(** With distinct ids, filtering an id out removes the one point that
    carries it. *)
Lemma filter_removes_one (i : string) (before after : list TrackPoint) (p : TrackPoint) :
  id p = i -> NoDup (ids (before ++ p :: after)) ->
  filter (fun q => negb (has_id i q)) (before ++ p :: after) = before ++ after.
Proof.
  intros Hp Hnd. unfold ids in Hnd. rewrite map_app in Hnd. simpl in Hnd.
  apply NoDup_remove_2 in Hnd. rewrite Hp in Hnd.
  rewrite filter_app. simpl.
  replace (has_id i p) with true by (symmetry; apply has_id_true; exact Hp).
  simpl. f_equal; apply filter_all, not_in_ids; intros Hin; apply Hnd;
    apply in_or_app; auto.
Qed.

(** C9, counterexample.  The no-op reading fails on a stale selection: no point carries the id
    ["ghost"], and yet removing it changes the state, because the selection
    named it. *)
Lemma removeTrackPoint_stale_selection_changes :
  (forall p, In p (trackPoints (store staleSelection)) -> id p <> "ghost"%string) /\
  selectedPointId (store staleSelection) = Some "ghost"%string /\
  selectedPointId (store (removeTrackPoint "ghost" staleSelection)) = None /\
  removeTrackPoint "ghost" staleSelection <> staleSelection.
Proof.
  repeat split.
  - intros p [].
  - intros H. apply (f_equal (fun w => selectedPointId (store w))) in H.
    discriminate H.
Qed.

(** C9 (amended).  [removeTrackPoint] keeps, in their order, the points
    whose id differs from the one given; when ids are distinct that removes
    exactly the one point carrying it.  The selection becomes none when it
    equaled the id and is kept otherwise.  When no point carries the id the
    track is unchanged, and the whole state is unchanged unless the
    selection equaled the id.  A second call changes nothing more. *)
Theorem removeTrackPoint_spec (w : World) (i : string) :
  trackPoints (store (removeTrackPoint i w)) =
    filter (fun p => negb (String.eqb (id p) i)) (trackPoints (store w)) /\
  (forall before p after,
     trackPoints (store w) = before ++ p :: after -> id p = i ->
     NoDup (ids (trackPoints (store w))) ->
     trackPoints (store (removeTrackPoint i w)) = before ++ after) /\
  (selectedPointId (store w) = Some i ->
     selectedPointId (store (removeTrackPoint i w)) = None) /\
  (selectedPointId (store w) <> Some i ->
     selectedPointId (store (removeTrackPoint i w)) = selectedPointId (store w)) /\
  ((forall p, In p (trackPoints (store w)) -> id p <> i) ->
     trackPoints (store (removeTrackPoint i w)) = trackPoints (store w) /\
     (selectedPointId (store w) <> Some i -> removeTrackPoint i w = w)) /\
  removeTrackPoint i (removeTrackPoint i w) = removeTrackPoint i w.
Proof.
  assert (Hkeep : (forall p, In p (trackPoints (store w)) -> id p <> i) ->
                  filter (fun point => negb (has_id i point)) (trackPoints (store w))
                  = trackPoints (store w)).
  { intros Hnone. apply filter_all. intros p Hp.
    apply negb_true_iff, has_id_false. auto. }
  split; [reflexivity|]. split; [|split; [|split; [|split]]].
  - intros before p after E Hp Hnd. simpl. rewrite E in *.
    apply filter_removes_one; assumption.
  - intros Hsel. simpl. apply selected_is_true in Hsel. rewrite Hsel. reflexivity.
  - intros Hsel. simpl. apply selected_is_false in Hsel. rewrite Hsel. reflexivity.
  - intros Hnone. split; [simpl; auto|].
    intros Hsel. apply selected_is_false in Hsel.
    rewrite removeTrackPoint_eq, Hkeep, Hsel by assumption.
    rewrite state_eta. apply world_eta.
  - rewrite !removeTrackPoint_eq. simpl. f_equal. f_equal.
    + apply filter_idem.
    + destruct (selected_is i (selectedPointId (store w))) eqn:E; simpl;
        [reflexivity|]. rewrite E. reflexivity.
Qed.

Lemma removeTrackPoint_spec_witness :
  trackPoints (store (removeTrackPoint "point-2" straight3)) =
    [mkTrackPoint "point-1" (THREE.mkVector3 0 0 0) 0] ++
    [mkTrackPoint "point-3" (THREE.mkVector3 20 0 0) 0] /\
  removeTrackPoint "point-9" straight3 = straight3 /\
  selectedPointId (store (removeTrackPoint "ghost" staleSelection)) = None.
Proof.
  split; [|split].
  - apply (proj1 (proj2 (removeTrackPoint_spec straight3 "point-2"))
             [mkTrackPoint "point-1" (THREE.mkVector3 0 0 0) 0]
             (mkTrackPoint "point-2" (THREE.mkVector3 10 0 0) 0)
             [mkTrackPoint "point-3" (THREE.mkVector3 20 0 0) 0]).
    + reflexivity.
    + reflexivity.
    + apply Reachable_unique_ids, Reachable_straight3.
  - apply (proj1 (proj2 (proj2 (proj2 (proj2 (removeTrackPoint_spec straight3 "point-9")))))).
    + apply resolve_None. reflexivity.
    + discriminate.
  - apply (proj1 (proj2 (proj2 (removeTrackPoint_spec staleSelection "ghost")))).
    reflexivity.
Defined.

(** ** C6: ids are unique, and [addTrackPoint] appends *)

(** C6.  In every state reachable from the initial store the ids on the
    track are pairwise distinct.  [addTrackPoint] appends one point, with
    the id minted from the incremented counter (an id no point of a
    reachable track carries) and tilt [0], after the points already there;
    [n] calls on an empty track leave a track of length [n]. *)
Theorem ids_unique_addTrackPoint_appends :
  (forall w, Reachable w -> NoDup (ids (trackPoints (store w)))) /\
  (forall w pos,
     trackPoints (store (addTrackPoint pos w)) =
       trackPoints (store w) ++ [mkTrackPoint (point_id (S (pointCounter w))) pos 0] /\
     (Reachable w ->
        ~ In (point_id (S (pointCounter w))) (ids (trackPoints (store w))))) /\
  (forall ps w,
     trackPoints (store w) = [] ->
     List.length (trackPoints (store (addTrackPoints ps w))) = List.length ps).
Proof.
  split; [|split].
  - intros w Hw. apply (Reachable_unique_ids w Hw).
  - intros w pos. split.
    + simpl. rewrite clone_eq. reflexivity.
    + intros Hw. destruct (Reachable_unique_ids w Hw) as [_ Hm].
      apply (minted_next_fresh (pointCounter w)); [assumption|lia].
  - intros ps w Hempty. rewrite length_addTrackPoints, Hempty. reflexivity.
Qed.

Lemma ids_unique_addTrackPoint_appends_witness :
  NoDup (ids (trackPoints (store straight3))) /\
  ~ In (point_id 4) (ids (trackPoints (store straight3))) /\
  List.length (trackPoints (store straight3)) = 3%nat.
Proof.
  split; [|split].
  - apply (proj1 ids_unique_addTrackPoint_appends straight3 Reachable_straight3).
  - apply (proj2 (proj1 (proj2 ids_unique_addTrackPoint_appends) straight3
                    (THREE.mkVector3 0 0 0)) Reachable_straight3).
  - apply (proj2 (proj2 ids_unique_addTrackPoint_appends)
             [THREE.mkVector3 0 0 0; THREE.mkVector3 10 0 0; THREE.mkVector3 20 0 0]
             initialWorld).
    reflexivity.
Defined.

(** ** C1: the splice *)

Lemma length_loopPointsOf (left center : THREE.Vector3) (counter : nat) :
  List.length (loopPointsOf left center counter) = 7%nat.
Proof. unfold loopPointsOf. rewrite length_map, length_seq. reflexivity. Qed.

Lemma length_splicedTrack (points : list TrackPoint) (pointIndex : nat)
    (left : THREE.Vector3) (loopPoints : list TrackPoint) :
  List.length (splicedTrack points pointIndex left loopPoints) =
  (List.length points + List.length loopPoints)%nat.
Proof.
  unfold splicedTrack. rewrite !length_app, !length_map.
  rewrite <- (firstn_skipn (pointIndex + 1) points) at 3.
  rewrite length_app. lia.
Qed.

(** C1.  When the id resolves to a point that is not the last one,
    [createLoopAtPoint] replaces the track by: the points up to and
    including the target moved by [+10] (which is [lateralOffset]) along
    the horizontal part of [left], then 7 loop points with newly minted
    ids, then the points after the target moved by [-10] along [left];
    moving a point keeps its height.  The track grows by exactly 7. *)
Theorem createLoopAtPoint_splices (w : World) (i : string) (pointIndex : nat) :
  resolve i (trackPoints (store w)) = Some pointIndex ->
  (pointIndex + 1 < List.length (trackPoints (store w)))%nat ->
  exists left loopPoints newTrackPoints,
    createLoopAtPoint i w =
      Some {| pointCounter := pointCounter w + 7;
              store := set_trackPoints newTrackPoints (store w) |} /\
    newTrackPoints =
      map (translateAlong left 10) (firstn (pointIndex + 1) (trackPoints (store w)))
      ++ loopPoints
      ++ map (translateAlong left (-10)) (skipn (pointIndex + 1) (trackPoints (store w))) /\
    lateralOffset = 10 /\
    (exists basePoint forward,
       nth_error (trackPoints (store w)) pointIndex = Some basePoint /\
       forwardAt (trackPoints (store w)) pointIndex (position basePoint) = Some forward /\
       left = leftOf forward) /\
    (forall d p,
       THREE.y (position (translateAlong left d p)) = THREE.y (position p) /\
       THREE.x (position (translateAlong left d p)) =
         THREE.x (position p) + d * THREE.x left /\
       THREE.z (position (translateAlong left d p)) =
         THREE.z (position p) + d * THREE.z left /\
       id (translateAlong left d p) = id p /\
       tilt (translateAlong left d p) = tilt p) /\
    List.length loopPoints = 7%nat /\
    ids loopPoints = map point_id (seq (pointCounter w + 1) 7) /\
    (forall q, In q loopPoints -> tilt q = 0) /\
    (Reachable w ->
       forall q, In q loopPoints -> ~ In (id q) (ids (trackPoints (store w)))) /\
    List.length newTrackPoints = (List.length (trackPoints (store w)) + 7)%nat.
Proof.
  intros Hres Hlt.
  destruct (createLoopAtPoint_success w i pointIndex Hres Hlt)
    as (basePoint & nextPoint & forward & Ebase & Enext & Efwd & E).
  set (left := leftOf forward).
  set (center := loopCenter (entryAnchor left basePoint) (exitAnchor left nextPoint)).
  exists left, (loopPointsOf left center (pointCounter w)),
    (loopedTrack w pointIndex basePoint nextPoint forward).
  split; [exact E|]. split; [reflexivity|].
  split; [unfold lateralOffset, loopRadius; lra|].
  split; [exists basePoint, forward; auto|].
  split; [intros d p; repeat split|].
  split; [apply length_loopPointsOf|].
  split; [apply ids_loopPointsOf|].
  split; [|split].
  - intros q Hq. unfold loopPointsOf in Hq. apply in_map_iff in Hq.
    destruct Hq as (k & <- & _). reflexivity.
  - intros Hw q Hq. destruct (Reachable_unique_ids w Hw) as [_ Hm].
    apply (loop_ids_fresh _ (pointCounter w) left center); [assumption|].
    unfold ids. apply in_map. exact Hq.
  - unfold loopedTrack. rewrite length_splicedTrack, length_loopPointsOf.
    reflexivity.
Qed.

Lemma createLoopAtPoint_splices_witness :
  exists w',
    createLoopAtPoint "point-2" straight3 = Some w' /\
    List.length (trackPoints (store w')) = 10%nat /\
    pointCounter w' = 10%nat.
Proof.
  destruct (createLoopAtPoint_splices straight3 "point-2" 1 eq_refl (le_n 3))
    as (left & loopPoints & newTrackPoints & E & _ & _ & _ & _ & _ & _ & _ & _ & Hlen).
  eexists. split; [exact E|]. split; [exact Hlen|reflexivity].
Defined.

(** ** Real-number facts about vectors and the arc *)

Lemma normalize_of_length (v : THREE.Vector3) (len : R) :
  0 < len -> THREE.length v = len ->
  THREE.normalize v =
  THREE.mkVector3 (THREE.x v / len) (THREE.y v / len) (THREE.z v / len).
Proof.
  intros Hpos Hlen. unfold THREE.normalize, THREE.or_one. rewrite Hlen.
  destruct (Req_dec_T len 0) as [H0|_]; [lra|].
  unfold THREE.divideScalar, THREE.multiplyScalar. f_equal; field; lra.
Qed.

Lemma length_axis (s : R) :
  0 <= s -> THREE.length (THREE.mkVector3 s 0 0) = s.
Proof.
  intros Hs. unfold THREE.length. simpl.
  replace (s * s + 0 * 0 + 0 * 0) with (s * s) by ring.
  apply sqrt_square. exact Hs.
Qed.

Lemma normalize_unit_x :
  THREE.normalize (THREE.mkVector3 1 0 0) = THREE.mkVector3 1 0 0.
Proof.
  rewrite (normalize_of_length _ 1); [|lra|apply length_axis; lra].
  simpl. f_equal; field.
Qed.

Lemma crossVectors_up (forward : THREE.Vector3) :
  THREE.crossVectors (THREE.mkVector3 0 1 0) forward =
  THREE.mkVector3 (THREE.z forward) 0 (- THREE.x forward).
Proof. unfold THREE.crossVectors. simpl. f_equal; ring. Qed.

Lemma sqrt2_bounds : 1.414 < sqrt 2 < 1.4145.
Proof.
  assert (Hsq : sqrt 2 * sqrt 2 = 2) by (apply sqrt_sqrt; lra).
  assert (Hpos : 0 < sqrt 2) by apply Rlt_sqrt2_0.
  split; nra.
Qed.

Lemma sin_eighth_turn : sin (2 * PI / 8) * 8 = 4 * sqrt 2.
Proof.
  replace (2 * PI / 8) with (PI / 4) by lra. rewrite sin_PI4.
  assert (Hsq : sqrt 2 * sqrt 2 = 2) by (apply sqrt_sqrt; lra).
  assert (Hpos : 0 < sqrt 2) by apply Rlt_sqrt2_0.
  apply (Rmult_eq_reg_r (sqrt 2)); [|lra].
  replace (1 / sqrt 2 * 8 * sqrt 2) with 8 by (field; lra).
  replace (4 * sqrt 2 * sqrt 2) with (4 * (sqrt 2 * sqrt 2)) by ring.
  rewrite Hsq. ring.
Qed.

Lemma cos_eighth_turn : cos (2 * PI / 8) * 8 = 4 * sqrt 2.
Proof.
  rewrite <- sin_eighth_turn. replace (2 * PI / 8) with (PI / 4) by lra.
  rewrite sin_cos_PI4. reflexivity.
Qed.

(** ** Reading the spliced track by index *)

Lemma length_incoming (points : list TrackPoint) (pointIndex : nat) (f : TrackPoint -> TrackPoint) :
  (pointIndex + 1 <= List.length points)%nat ->
  List.length (map f (firstn (pointIndex + 1) points)) = (pointIndex + 1)%nat.
Proof. intros H. rewrite length_map, length_firstn. lia. Qed.

Lemma nth_error_splicedTrack_entry (points : list TrackPoint) (pointIndex : nat)
    (left : THREE.Vector3) (loopPoints : list TrackPoint) (basePoint : TrackPoint) :
  nth_error points pointIndex = Some basePoint ->
  nth_error (splicedTrack points pointIndex left loopPoints) pointIndex =
  Some (translateAlong left 10 basePoint).
Proof.
  intros Hb. assert (Hlt : (pointIndex < List.length points)%nat)
    by (apply nth_error_Some; congruence).
  unfold splicedTrack. rewrite nth_error_app1 by (rewrite length_incoming; lia).
  rewrite nth_error_map, nth_error_firstn.
  replace (pointIndex <? pointIndex + 1)%nat with true
    by (symmetry; apply Nat.ltb_lt; lia).
  rewrite Hb. reflexivity.
Qed.

Lemma nth_error_splicedTrack_loop (points : list TrackPoint) (pointIndex : nat)
    (left : THREE.Vector3) (loopPoints : list TrackPoint) (k : nat) :
  (pointIndex + 1 <= List.length points)%nat ->
  (k < List.length loopPoints)%nat ->
  nth_error (splicedTrack points pointIndex left loopPoints) (pointIndex + 1 + k) =
  nth_error loopPoints k.
Proof.
  intros Hle Hk. unfold splicedTrack.
  rewrite nth_error_app2 by (rewrite length_incoming; lia).
  rewrite length_incoming by lia.
  replace (pointIndex + 1 + k - (pointIndex + 1))%nat with k by lia.
  apply nth_error_app1. exact Hk.
Qed.

Lemma nth_error_splicedTrack_exit (points : list TrackPoint) (pointIndex : nat)
    (left : THREE.Vector3) (loopPoints : list TrackPoint) (nextPoint : TrackPoint) :
  nth_error points (pointIndex + 1) = Some nextPoint ->
  nth_error (splicedTrack points pointIndex left loopPoints)
    (pointIndex + 1 + List.length loopPoints) =
  Some (translateAlong left (-10) nextPoint).
Proof.
  intros Hn. assert (Hlt : (pointIndex + 1 < List.length points)%nat)
    by (apply nth_error_Some; congruence).
  unfold splicedTrack.
  rewrite nth_error_app2 by (rewrite length_incoming; lia).
  rewrite length_incoming by lia.
  rewrite nth_error_app2 by lia.
  replace (pointIndex + 1 + List.length loopPoints - (pointIndex + 1)
           - List.length loopPoints)%nat with 0%nat by lia.
  rewrite nth_error_map, nth_error_skipn, Nat.add_0_r, Hn. reflexivity.
Qed.

Lemma nth_error_loopPointsOf (left center : THREE.Vector3) (counter k : nat) :
  (1 <= k <= 7)%nat ->
  nth_error (loopPointsOf left center counter) (k - 1) =
  Some (loopPoint left center counter k).
Proof.
  intros Hk. unfold loopPointsOf, arcPoints.
  do 8 (destruct k as [|k]; [try lia; try reflexivity|]). lia.
Qed.

Lemma position_loopPoint (left center : THREE.Vector3) (counter k : nat) :
  position (loopPoint left center counter k) =
  arcAround left center (INR k / 8 * (2 * PI)).
Proof.
  unfold loopPoint, loopPointAt, arcAround. simpl position. f_equal.
  replace (INR arcPoints) with 8 by (unfold arcPoints; simpl; lra).
  lra.
Qed.

(** ** C5: the forward and left directions *)



(** ** C3: the loop points lie on the circle *)

(** C3.  In a loop insertion the loop center has the midpoint of the
    entry and exit anchors as horizontal coordinates and the entry height
    plus 8 as height; the [k]-th loop point ([k] from 1 to 7) lies at
    angle [(k/8) * 2 PI]: [cos angle * 8] along [left] from the center and
    [sin angle * 8] above it.  For the first loop point both offsets are
    [sin (2 PI / 8) * 8 = cos (2 PI / 8) * 8], within 0.001 of 5.657. *)
Theorem loop_points_on_circle (w : World) (i : string) (pointIndex : nat) :
  resolve i (trackPoints (store w)) = Some pointIndex ->
  (pointIndex + 1 < List.length (trackPoints (store w)))%nat ->
  exists basePoint nextPoint forward,
    loop_inserted w i pointIndex basePoint nextPoint forward /\
    let left := leftOf forward in
    let entryPos := entryAnchor left basePoint in
    let exitPos := exitAnchor left nextPoint in
    let center := loopCenter entryPos exitPos in
    let track := loopedTrack w pointIndex basePoint nextPoint forward in
    option_map position (nth_error track pointIndex) = Some entryPos /\
    option_map position (nth_error track (pointIndex + 8)) = Some exitPos /\
    THREE.x center = (THREE.x entryPos + THREE.x exitPos) / 2 /\
    THREE.z center = (THREE.z entryPos + THREE.z exitPos) / 2 /\
    THREE.y center = THREE.y entryPos + 8 /\
    (forall k, (1 <= k <= 7)%nat ->
       exists q,
         nth_error track (pointIndex + k) = Some q /\
         THREE.x (position q) =
           THREE.x center + cos (INR k / 8 * (2 * PI)) * 8 * THREE.x left /\
         THREE.y (position q) =
           THREE.y center + sin (INR k / 8 * (2 * PI)) * 8 /\
         THREE.z (position q) =
           THREE.z center + cos (INR k / 8 * (2 * PI)) * 8 * THREE.z left) /\
    (exists q,
       nth_error track (pointIndex + 1) = Some q /\
       THREE.y (position q) - THREE.y center = sin (2 * PI / 8) * 8 /\
       THREE.x (position q) - THREE.x center = cos (2 * PI / 8) * 8 * THREE.x left /\
       THREE.z (position q) - THREE.z center = cos (2 * PI / 8) * 8 * THREE.z left) /\
    sin (2 * PI / 8) * 8 = cos (2 * PI / 8) * 8 /\
    Rabs (sin (2 * PI / 8) * 8 - 5.657) < 0.001.
Proof.
  intros Hres Hlt.
  destruct (createLoopAtPoint_success w i pointIndex Hres Hlt)
    as (basePoint & nextPoint & forward & Hins).
  exists basePoint, nextPoint, forward. split; [exact Hins|].
  destruct Hins as (Ebase & Enext & _ & _).
  intros left entryPos exitPos center track.
  assert (Hat : forall k, (1 <= k <= 7)%nat ->
            nth_error track (pointIndex + k) =
            Some (loopPoint left center (pointCounter w) k)).
  { intros k Hk. subst track. unfold loopedTrack.
    replace (pointIndex + k)%nat with (pointIndex + 1 + (k - 1))%nat by lia.
    rewrite nth_error_splicedTrack_loop by (rewrite ?length_loopPointsOf; lia).
    apply nth_error_loopPointsOf. exact Hk. }
  split; [|split; [|split; [|split; [|split; [|split; [|split; [|split]]]]]]].
  - subst track. unfold loopedTrack.
    rewrite (nth_error_splicedTrack_entry _ _ _ _ basePoint Ebase).
    cbn [option_map]. rewrite <- shiftIncoming_translate. reflexivity.
  - subst track. unfold loopedTrack.
    replace (pointIndex + 8)%nat
      with (pointIndex + 1 + List.length (loopPointsOf (leftOf forward)
              (loopCenter (entryAnchor (leftOf forward) basePoint)
                          (exitAnchor (leftOf forward) nextPoint))
              (pointCounter w)))%nat
      by (rewrite length_loopPointsOf; lia).
    rewrite (nth_error_splicedTrack_exit _ _ _ _ nextPoint Enext).
    cbn [option_map]. rewrite <- shiftOutgoing_translate. reflexivity.
  - reflexivity.
  - reflexivity.
  - reflexivity.
  - intros k Hk. exists (loopPoint left center (pointCounter w) k).
    split; [apply Hat; exact Hk|].
    rewrite position_loopPoint. unfold arcAround, arcPosition, loopRadius. simpl.
    repeat split; ring.
  - exists (loopPoint left center (pointCounter w) 1).
    split; [apply Hat; lia|].
    rewrite position_loopPoint. unfold arcAround, arcPosition, loopRadius. simpl.
    replace (1 / 8 * (2 * PI)) with (2 * PI / 8) by lra.
    repeat split; ring.
  - rewrite sin_eighth_turn, cos_eighth_turn. reflexivity.
  - rewrite sin_eighth_turn. pose proof sqrt2_bounds as [Hlo Hhi].
    apply Rabs_def1; lra.
Qed.

Lemma loop_points_on_circle_witness :
  exists basePoint nextPoint forward,
    loop_inserted straight3 "point-2" 1 basePoint nextPoint forward /\
    THREE.y (loopCenter (entryAnchor (leftOf forward) basePoint)
                        (exitAnchor (leftOf forward) nextPoint)) =
    THREE.y (entryAnchor (leftOf forward) basePoint) + 8.
Proof.
  destruct (loop_points_on_circle straight3 "point-2" 1 eq_refl (le_n 3))
    as (basePoint & nextPoint & forward & Hins & _ & _ & _ & _ & Hy & _).
  exists basePoint, nextPoint, forward. split; assumption.
Defined.

(** ** C4: where the arc is at angle 0 and at angle PI *)

Lemma arcAround_0 (left center : THREE.Vector3) :
  arcAround left center 0 =
  THREE.mkVector3 (THREE.x center + 8 * THREE.x left) (THREE.y center)
                  (THREE.z center + 8 * THREE.z left).
Proof.
  unfold arcAround, arcPosition, loopRadius. rewrite cos_0, sin_0.
  f_equal; ring.
Qed.

Lemma arcAround_PI (left center : THREE.Vector3) :
  arcAround left center PI =
  THREE.mkVector3 (THREE.x center - 8 * THREE.x left) (THREE.y center)
                  (THREE.z center - 8 * THREE.z left).
Proof.
  unfold arcAround, arcPosition, loopRadius. rewrite cos_PI, sin_PI.
  f_equal; ring.
Qed.

(** The frame of the loop inserted at the middle point of [straight3]. *)
Lemma straight3_frame (basePoint nextPoint : TrackPoint) (forward : THREE.Vector3) :
  loop_inserted straight3 "point-2" 1 basePoint nextPoint forward ->
  basePoint = mkTrackPoint "point-2" (THREE.mkVector3 10 0 0) 0 /\
  nextPoint = mkTrackPoint "point-3" (THREE.mkVector3 20 0 0) 0 /\
  forward = THREE.mkVector3 1 0 0 /\
  leftOf forward = THREE.mkVector3 0 0 (-1).
Proof.
  intros (Ebase & Enext & Efwd & _).
  change (nth_error (trackPoints (store straight3)) 1)
    with (Some (mkTrackPoint "point-2" (THREE.mkVector3 10 0 0) 0)) in Ebase.
  change (nth_error (trackPoints (store straight3)) (1 + 1))
    with (Some (mkTrackPoint "point-3" (THREE.mkVector3 20 0 0) 0)) in Enext.
  injection Ebase as <-. injection Enext as <-.
  assert (Hf : forward = THREE.mkVector3 1 0 0).
  { unfold forwardAt in Efwd.
    change (nth_error (trackPoints (store straight3)) 0)
      with (Some (mkTrackPoint "point-1" (THREE.mkVector3 0 0 0) 0)) in Efwd.
    cbv beta iota zeta in Efwd.
    change (THREE.set_y (THREE.sub _ _) 0)
      with (THREE.mkVector3 (10 - 0) 0 (0 - 0)) in Efwd.
    replace (10 - 0) with 10 in Efwd by lra.
    replace (0 - 0) with 0 in Efwd by lra.
    assert (Hlen : THREE.length (THREE.mkVector3 10 0 0) = 10)
      by (apply length_axis; lra).
    rewrite Hlen in Efwd.
    destruct (Rlt_dec 10 0.1) as [Habs|_]; [lra|].
    rewrite (normalize_of_length _ 10) in Efwd by (lra || exact Hlen).
    injection Efwd as <-. simpl. f_equal; field. }
  repeat split; try assumption.
  rewrite Hf. unfold leftOf. rewrite crossVectors_up. simpl.
  rewrite (normalize_of_length _ 1).
  - simpl. f_equal; field.
  - lra.
  - unfold THREE.length. simpl.
    replace (0 * 0 + 0 * 0 + - (1) * - (1)) with 1 by ring. apply sqrt_1.
Qed.

(** C4, counterexample.  On [straight3], with the loop inserted at the middle point: the entry
    anchor is (10, 0, -10) and the exit anchor (20, 0, 10), while the arc is
    at (15, 8, -8) at angle 0 and at (15, 8, 8) at angle PI.  The arc meets
    neither anchor. *)
Lemma arc_misses_anchors_straight3 :
  exists basePoint nextPoint forward,
    loop_inserted straight3 "point-2" 1 basePoint nextPoint forward /\
    entryAnchor (leftOf forward) basePoint = THREE.mkVector3 10 0 (-10) /\
    exitAnchor (leftOf forward) nextPoint = THREE.mkVector3 20 0 10 /\
    arcAround (leftOf forward)
      (loopCenter (entryAnchor (leftOf forward) basePoint)
                  (exitAnchor (leftOf forward) nextPoint)) 0 =
      THREE.mkVector3 15 8 (-8) /\
    arcAround (leftOf forward)
      (loopCenter (entryAnchor (leftOf forward) basePoint)
                  (exitAnchor (leftOf forward) nextPoint)) PI =
      THREE.mkVector3 15 8 8 /\
    ~ arc_meets_anchors (leftOf forward) basePoint nextPoint.
Proof.
  destruct (createLoopAtPoint_success straight3 "point-2" 1 eq_refl (le_n 3))
    as (basePoint & nextPoint & forward & Hins).
  exists basePoint, nextPoint, forward. split; [exact Hins|].
  destruct (straight3_frame _ _ _ Hins) as (-> & -> & -> & Hleft).
  assert (Hentry : entryAnchor (leftOf (THREE.mkVector3 1 0 0))
                     (mkTrackPoint "point-2" (THREE.mkVector3 10 0 0) 0)
                   = THREE.mkVector3 10 0 (-10)).
  { rewrite Hleft. unfold entryAnchor, shiftIncoming, lateralOffset, loopRadius.
    simpl. f_equal; ring. }
  assert (Hexit : exitAnchor (leftOf (THREE.mkVector3 1 0 0))
                    (mkTrackPoint "point-3" (THREE.mkVector3 20 0 0) 0)
                  = THREE.mkVector3 20 0 10).
  { rewrite Hleft. unfold exitAnchor, shiftOutgoing, lateralOffset, loopRadius.
    simpl. f_equal; ring. }
  assert (H0 : arcAround (leftOf (THREE.mkVector3 1 0 0))
                 (loopCenter (THREE.mkVector3 10 0 (-10)) (THREE.mkVector3 20 0 10)) 0
               = THREE.mkVector3 15 8 (-8)).
  { rewrite arcAround_0, Hleft. unfold loopCenter, loopRadius. simpl.
    f_equal; field. }
  assert (HPI : arcAround (leftOf (THREE.mkVector3 1 0 0))
                  (loopCenter (THREE.mkVector3 10 0 (-10)) (THREE.mkVector3 20 0 10)) PI
                = THREE.mkVector3 15 8 8).
  { rewrite arcAround_PI, Hleft. unfold loopCenter, loopRadius. simpl.
    f_equal; field. }
  unfold arc_meets_anchors. rewrite Hentry, Hexit, H0, HPI.
  repeat split.
  intros [Habs _]. apply (f_equal THREE.y) in Habs. simpl in Habs. lra.
Qed.

(** C4 (amended).  In a loop insertion the arc position at angle 0 is the
    center moved by [+8] along [left], at center height, and the arc
    position at angle PI (which is the fourth loop point) is the center
    moved by [-8] along [left], at center height.  The first is always 8
    above the entry anchor, so it never coincides with it; horizontally it
    is off the entry anchor by half the step from the target to its
    successor minus [2 * left].  The second is off the exit anchor by
    [2 * left] minus half that step horizontally, and by 8 plus the
    target's height minus the successor's height vertically. *)
Theorem arc_at_0_and_PI (w : World) (i : string) (pointIndex : nat) :
  resolve i (trackPoints (store w)) = Some pointIndex ->
  (pointIndex + 1 < List.length (trackPoints (store w)))%nat ->
  exists basePoint nextPoint forward,
    loop_inserted w i pointIndex basePoint nextPoint forward /\
    let left := leftOf forward in
    let entryPos := entryAnchor left basePoint in
    let exitPos := exitAnchor left nextPoint in
    let center := loopCenter entryPos exitPos in
    let track := loopedTrack w pointIndex basePoint nextPoint forward in
    let stepX := THREE.x (position nextPoint) - THREE.x (position basePoint) in
    let stepZ := THREE.z (position nextPoint) - THREE.z (position basePoint) in
    arcAround left center 0 =
      THREE.mkVector3 (THREE.x center + 8 * THREE.x left) (THREE.y center)
                      (THREE.z center + 8 * THREE.z left) /\
    arcAround left center PI =
      THREE.mkVector3 (THREE.x center - 8 * THREE.x left) (THREE.y center)
                      (THREE.z center - 8 * THREE.z left) /\
    option_map position (nth_error track (pointIndex + 4)) =
      Some (arcAround left center PI) /\
    THREE.y (arcAround left center 0) = THREE.y entryPos + 8 /\
    arcAround left center 0 <> entryPos /\
    THREE.x (arcAround left center 0) - THREE.x entryPos =
      stepX / 2 - 2 * THREE.x left /\
    THREE.z (arcAround left center 0) - THREE.z entryPos =
      stepZ / 2 - 2 * THREE.z left /\
    THREE.x (arcAround left center PI) - THREE.x exitPos =
      2 * THREE.x left - stepX / 2 /\
    THREE.z (arcAround left center PI) - THREE.z exitPos =
      2 * THREE.z left - stepZ / 2 /\
    THREE.y (arcAround left center PI) - THREE.y exitPos =
      8 + (THREE.y (position basePoint) - THREE.y (position nextPoint)).
Proof.
  intros Hres Hlt.
  destruct (createLoopAtPoint_success w i pointIndex Hres Hlt)
    as (basePoint & nextPoint & forward & Hins).
  exists basePoint, nextPoint, forward. split; [exact Hins|].
  destruct Hins as (Ebase & Enext & _ & _).
  intros left entryPos exitPos center track stepX stepZ.
  assert (Hy0 : THREE.y (arcAround left center 0) = THREE.y entryPos + 8)
    by (rewrite arcAround_0; reflexivity).
  split; [apply arcAround_0|]. split; [apply arcAround_PI|].
  split; [|split; [exact Hy0|split]].
  - subst track. unfold loopedTrack.
    replace (pointIndex + 4)%nat with (pointIndex + 1 + (4 - 1))%nat by lia.
    rewrite nth_error_splicedTrack_loop by (rewrite ?length_loopPointsOf; lia).
    rewrite nth_error_loopPointsOf by lia. cbn [option_map].
    rewrite position_loopPoint. do 2 f_equal.
    replace (INR 4) with 4 by (simpl; lra). lra.
  - intros Habs. rewrite Habs in Hy0. lra.
  - rewrite arcAround_0, arcAround_PI.
    subst center entryPos exitPos stepX stepZ.
    unfold loopCenter, entryAnchor, exitAnchor, shiftIncoming, shiftOutgoing,
      lateralOffset, loopRadius.
    clearbody left. cbn [THREE.x THREE.y THREE.z position]. repeat split; lra.
Qed.

Lemma arc_at_0_and_PI_witness :
  exists basePoint nextPoint forward,
    loop_inserted straight3 "point-2" 1 basePoint nextPoint forward /\
    arcAround (leftOf forward)
      (loopCenter (entryAnchor (leftOf forward) basePoint)
                  (exitAnchor (leftOf forward) nextPoint)) 0
    <> entryAnchor (leftOf forward) basePoint.
Proof.
  destruct (arc_at_0_and_PI straight3 "point-2" 1 eq_refl (le_n 3))
    as (basePoint & nextPoint & forward & Hins & _ & _ & _ & _ & Hne & _).
  exists basePoint, nextPoint, forward. split; assumption.
Defined.

(** * Beyond the claims: the other operations of the store *)

(** ** [updateTrackPoint] and [updateTrackPointTilt] (lines 89-103) *)

Lemma updateTrackPoint_eq (i : string) (pos : THREE.Vector3) (w : World) :
  updateTrackPoint i pos w =
  {| pointCounter := pointCounter w;
     store := set_trackPoints
                (map (fun point =>
                        if has_id i point
                        then mkTrackPoint (id point) pos (tilt point)
                        else point)
                     (trackPoints (store w)))
                (store w) |}.
Proof.
  unfold updateTrackPoint, set_with, set, merge. simpl.
  rewrite clone_eq. reflexivity.
Qed.

Lemma updateTrackPointTilt_eq (i : string) (t : R) (w : World) :
  updateTrackPointTilt i t w =
  {| pointCounter := pointCounter w;
     store := set_trackPoints
                (map (fun point =>
                        if has_id i point
                        then mkTrackPoint (id point) (position point) t
                        else point)
                     (trackPoints (store w)))
                (store w) |}.
Proof. reflexivity. Qed.

Lemma set_trackPoints_same (s : RollerCoasterState) :
  set_trackPoints (trackPoints s) s = s.
Proof. destruct s; reflexivity. Qed.

Lemma resolve_map_same (i : string) (f : TrackPoint -> TrackPoint) (l : list TrackPoint) :
  (forall p, id (f p) = id p) -> resolve i (map f l) = resolve i l.
Proof.
  intros Hid. unfold resolve. induction l as [|p l IH]; simpl; [reflexivity|].
  unfold has_id at 1 3. rewrite Hid. destruct (String.eqb (id p) i); [reflexivity|].
  rewrite IH. reflexivity.
Qed.

Lemma map_unmatched (i : string) (f : TrackPoint -> TrackPoint) (l : list TrackPoint) :
  (forall p, In p l -> id p <> i) ->
  map (fun point => if has_id i point then f point else point) l = l.
Proof.
  intros Hnone. induction l as [|p l IH]; simpl; [reflexivity|].
  replace (has_id i p) with false
    by (symmetry; apply has_id_false; apply Hnone; left; reflexivity).
  f_equal. apply IH. intros q Hq. apply Hnone. right. exact Hq.
Qed.

(** X1.  A point that [updateTrackPoint] is given by id is read back with
    the position given: when the id resolves to index [k], the point at
    [k] then has the new position and the id still resolves to [k]; the
    ids and tilts of the track, every point with another id, and
    [pointCounter] are as before. *)
Theorem updateTrackPoint_round_trip (w : World) (i : string) (pos : THREE.Vector3)
    (k : nat) :
  resolve i (trackPoints (store w)) = Some k ->
  option_map position
    (nth_error (trackPoints (store (updateTrackPoint i pos w))) k) = Some pos /\
  resolve i (trackPoints (store (updateTrackPoint i pos w))) = Some k /\
  ids (trackPoints (store (updateTrackPoint i pos w))) = ids (trackPoints (store w)) /\
  map tilt (trackPoints (store (updateTrackPoint i pos w))) =
    map tilt (trackPoints (store w)) /\
  (forall j q,
     nth_error (trackPoints (store w)) j = Some q -> id q <> i ->
     nth_error (trackPoints (store (updateTrackPoint i pos w))) j = Some q) /\
  pointCounter (updateTrackPoint i pos w) = pointCounter w.
Proof.
  intros Hres. rewrite updateTrackPoint_eq. cbn [store trackPoints set_trackPoints pointCounter].
  destruct (findIndex_Some _ _ _ Hres) as (p & Hp & Hmatch & _).
  split; [|split; [|split; [|split; [|split]]]].
  - rewrite nth_error_map, Hp. simpl. rewrite Hmatch. reflexivity.
  - rewrite resolve_map_same; [exact Hres|].
    intros q. destruct (has_id i q); reflexivity.
  - apply ids_map_same. intros q. destruct (has_id i q); reflexivity.
  - rewrite map_map. apply map_ext. intros q. destruct (has_id i q); reflexivity.
  - intros j q Hq Hne. rewrite nth_error_map, Hq. simpl.
    apply has_id_false in Hne. rewrite Hne. reflexivity.
  - reflexivity.
Qed.

Lemma updateTrackPoint_round_trip_witness :
  option_map position
    (nth_error
       (trackPoints (store (updateTrackPoint "point-2" (THREE.mkVector3 1 2 3) straight3)))
       1)
  = Some (THREE.mkVector3 1 2 3).
Proof.
  apply (updateTrackPoint_round_trip straight3 "point-2" (THREE.mkVector3 1 2 3) 1).
  reflexivity.
Defined.

(** X2.  [updateTrackPointTilt] sets the tilt of the point the id
    resolves to, and nothing else: positions and ids of the track, the
    points with another id, and [pointCounter] are as before. *)
Theorem updateTrackPointTilt_round_trip (w : World) (i : string) (t : R) (k : nat) :
  resolve i (trackPoints (store w)) = Some k ->
  option_map tilt
    (nth_error (trackPoints (store (updateTrackPointTilt i t w))) k) = Some t /\
  resolve i (trackPoints (store (updateTrackPointTilt i t w))) = Some k /\
  ids (trackPoints (store (updateTrackPointTilt i t w))) = ids (trackPoints (store w)) /\
  map position (trackPoints (store (updateTrackPointTilt i t w))) =
    map position (trackPoints (store w)) /\
  (forall j q,
     nth_error (trackPoints (store w)) j = Some q -> id q <> i ->
     nth_error (trackPoints (store (updateTrackPointTilt i t w))) j = Some q) /\
  pointCounter (updateTrackPointTilt i t w) = pointCounter w.
Proof.
  intros Hres. rewrite updateTrackPointTilt_eq.
  cbn [store trackPoints set_trackPoints pointCounter].
  destruct (findIndex_Some _ _ _ Hres) as (p & Hp & Hmatch & _).
  split; [|split; [|split; [|split; [|split]]]].
  - rewrite nth_error_map, Hp. simpl. rewrite Hmatch. reflexivity.
  - rewrite resolve_map_same; [exact Hres|].
    intros q. destruct (has_id i q); reflexivity.
  - apply ids_map_same. intros q. destruct (has_id i q); reflexivity.
  - rewrite map_map. apply map_ext. intros q. destruct (has_id i q); reflexivity.
  - intros j q Hq Hne. rewrite nth_error_map, Hq. simpl.
    apply has_id_false in Hne. rewrite Hne. reflexivity.
  - reflexivity.
Qed.

Lemma updateTrackPointTilt_round_trip_witness :
  option_map tilt
    (nth_error (trackPoints (store (updateTrackPointTilt "point-3" 0.5 straight3))) 2)
  = Some 0.5.
Proof.
  apply (updateTrackPointTilt_round_trip straight3 "point-3" 0.5 2). reflexivity.
Defined.

(** X3.  On an id that no point carries, [updateTrackPoint] and
    [updateTrackPointTilt] leave the whole state as it was. *)
Theorem update_unknown_id_changes_nothing (w : World) (i : string)
    (pos : THREE.Vector3) (t : R) :
  (forall p, In p (trackPoints (store w)) -> id p <> i) ->
  updateTrackPoint i pos w = w /\ updateTrackPointTilt i t w = w.
Proof.
  intros Hnone. rewrite updateTrackPoint_eq, updateTrackPointTilt_eq.
  rewrite !map_unmatched by exact Hnone.
  rewrite set_trackPoints_same, world_eta. split; reflexivity.
Qed.

Lemma update_unknown_id_changes_nothing_witness :
  updateTrackPoint "point-9" (THREE.mkVector3 1 2 3) straight3 = straight3 /\
  updateTrackPointTilt "point-9" 1 straight3 = straight3.
Proof.
  apply (update_unknown_id_changes_nothing straight3 "point-9").
  apply resolve_None. reflexivity.
Defined.

(** X4.  Position and tilt are independent: an [updateTrackPoint] and an
    [updateTrackPointTilt], on the same id or on different ids, give the
    same state in either order. *)
Theorem updateTrackPoint_tilt_commute (w : World) (i j : string)
    (pos : THREE.Vector3) (t : R) :
  updateTrackPoint i pos (updateTrackPointTilt j t w) =
  updateTrackPointTilt j t (updateTrackPoint i pos w).
Proof.
  rewrite !updateTrackPoint_eq, !updateTrackPointTilt_eq.
  cbn [store trackPoints set_trackPoints pointCounter].
  unfold set_trackPoints. cbn. f_equal. f_equal.
  rewrite !map_map. apply map_ext. intros p.
  unfold has_id.
  destruct (String.eqb (id p) i) eqn:Ei, (String.eqb (id p) j) eqn:Ej;
    cbn; rewrite ?Ei, ?Ej; reflexivity.
Qed.

(** X5.  The last write wins: a second [updateTrackPoint] on the same id
    overwrites the first, and so does a second [updateTrackPointTilt]. *)
Theorem update_last_write_wins (w : World) (i : string)
    (pos1 pos2 : THREE.Vector3) (t1 t2 : R) :
  updateTrackPoint i pos2 (updateTrackPoint i pos1 w) = updateTrackPoint i pos2 w /\
  updateTrackPointTilt i t2 (updateTrackPointTilt i t1 w) = updateTrackPointTilt i t2 w.
Proof.
  rewrite !updateTrackPoint_eq, !updateTrackPointTilt_eq.
  cbn [store trackPoints set_trackPoints pointCounter].
  unfold set_trackPoints. cbn.
  split; f_equal; f_equal; rewrite !map_map; apply map_ext; intros p;
    unfold has_id; destruct (String.eqb (id p) i) eqn:Ei; cbn; rewrite ?Ei;
    reflexivity.
Qed.

(** ** What [createLoopAtPoint] can do to a state *)

Lemma createLoopAtPoint_outcome (w w' : World) (i : string) :
  createLoopAtPoint i w = Some w' ->
  w' = w \/
  exists pointIndex basePoint nextPoint forward,
    resolve i (trackPoints (store w)) = Some pointIndex /\
    (pointIndex + 1 < List.length (trackPoints (store w)))%nat /\
    loop_inserted w i pointIndex basePoint nextPoint forward /\
    w' = {| pointCounter := pointCounter w + 7;
            store := set_trackPoints
                       (loopedTrack w pointIndex basePoint nextPoint forward)
                       (store w) |}.
Proof.
  intros H.
  destruct (resolve i (trackPoints (store w))) as [pointIndex|] eqn:Eres.
  - destruct (Nat.lt_ge_cases (pointIndex + 1) (List.length (trackPoints (store w))))
      as [Hlt|Hge].
    + right.
      destruct (createLoopAtPoint_success w i pointIndex Eres Hlt)
        as (basePoint & nextPoint & forward & Hins).
      exists pointIndex, basePoint, nextPoint, forward.
      split; [reflexivity|]. split; [exact Hlt|]. split; [exact Hins|].
      destruct Hins as (_ & _ & _ & E). rewrite E in H. injection H as <-.
      reflexivity.
    + left. rewrite createLoopAtPoint_guard in H
        by (intros k Ek; rewrite Eres in Ek; injection Ek as <-; lia).
      injection H as <-. reflexivity.
  - left. rewrite createLoopAtPoint_guard in H
      by (intros k Ek; rewrite Eres in Ek; discriminate).
    injection H as <-. reflexivity.
Qed.

Lemma ids_loopedTrack (w : World) (pointIndex : nat)
    (basePoint nextPoint : TrackPoint) (forward : THREE.Vector3) :
  ids (loopedTrack w pointIndex basePoint nextPoint forward) =
  ids (firstn (pointIndex + 1) (trackPoints (store w)))
  ++ map point_id (seq (pointCounter w + 1) 7)
  ++ ids (skipn (pointIndex + 1) (trackPoints (store w))).
Proof.
  unfold loopedTrack. rewrite ids_splicedTrack, ids_loopPointsOf. reflexivity.
Qed.

Lemma ids_firstn_skipn (n : nat) (points : list TrackPoint) :
  ids (firstn n points) ++ ids (skipn n points) = ids points.
Proof. rewrite <- ids_app, firstn_skipn. reflexivity. Qed.

(** X6.  [createLoopAtPoint] never reads the track out of range: on every
    state and id it returns, and it either leaves the state as it was or
    lengthens the track by 7 and advances [pointCounter] by 7.  On a track
    of fewer than 2 points it always leaves the state as it was. *)
Theorem createLoopAtPoint_all_or_nothing (w : World) (i : string) :
  exists w',
    createLoopAtPoint i w = Some w' /\
    (w' = w \/
     (List.length (trackPoints (store w')) =
        (List.length (trackPoints (store w)) + 7)%nat /\
      pointCounter w' = (pointCounter w + 7)%nat /\
      (2 <= List.length (trackPoints (store w)))%nat)).
Proof.
  destruct (createLoopAtPoint_returns w i) as [w' E]. exists w'.
  split; [exact E|].
  destruct (createLoopAtPoint_outcome w w' i E)
    as [->|(k & b & n & f & _ & Hlt & _ & ->)]; [left; reflexivity|right].
  cbn [store trackPoints set_trackPoints pointCounter]. unfold loopedTrack.
  rewrite length_splicedTrack, length_loopPointsOf. repeat split; lia.
Qed.

(** ** Adding and removing (lines 82-87 and 105-110) *)

Lemma resolve_appended (i : string) (l : list TrackPoint) (p : TrackPoint) :
  ~ In i (ids l) -> id p = i -> resolve i (l ++ [p]) = Some (List.length l).
Proof.
  intros Hnot Hp. unfold resolve. induction l as [|q l IH]; simpl.
  - replace (has_id i p) with true by (symmetry; apply has_id_true; exact Hp).
    reflexivity.
  - replace (has_id i q) with false.
    + rewrite IH; [reflexivity|]. intros Hin. apply Hnot. right. exact Hin.
    + symmetry. apply has_id_false. intros E. apply Hnot. left. exact E.
Qed.

Lemma next_id_fresh (w : World) :
  Reachable w -> ~ In (point_id (S (pointCounter w))) (ids (trackPoints (store w))).
Proof.
  intros Hw. destruct (Reachable_unique_ids w Hw) as [_ Hm].
  apply (minted_next_fresh (pointCounter w)); [assumption|lia].
Qed.

Lemma addTrackPoint_eq (pos : THREE.Vector3) (w : World) :
  addTrackPoint pos w =
  {| pointCounter := S (pointCounter w);
     store := set_trackPoints
                (trackPoints (store w)
                 ++ [mkTrackPoint (point_id (S (pointCounter w))) pos 0])
                (store w) |}.
Proof.
  unfold addTrackPoint, set_with, set, merge. simpl. rewrite clone_eq. reflexivity.
Qed.

(** X7.  In a reachable state, the point [addTrackPoint] has just added
    is found by its id: the id resolves to the last index, where the point
    has the position given and tilt 0. *)
Theorem addTrackPoint_then_lookup (w : World) (pos : THREE.Vector3) :
  Reachable w ->
  resolve (point_id (S (pointCounter w)))
    (trackPoints (store (addTrackPoint pos w)))
  = Some (List.length (trackPoints (store w))) /\
  nth_error (trackPoints (store (addTrackPoint pos w)))
    (List.length (trackPoints (store w)))
  = Some (mkTrackPoint (point_id (S (pointCounter w))) pos 0).
Proof.
  intros Hw. rewrite addTrackPoint_eq. cbn [store trackPoints set_trackPoints].
  split.
  - apply resolve_appended; [apply next_id_fresh; exact Hw|reflexivity].
  - rewrite nth_error_app2 by lia. rewrite Nat.sub_diag. reflexivity.
Qed.

Lemma addTrackPoint_then_lookup_witness :
  resolve "point-4"
    (trackPoints (store (addTrackPoint (THREE.mkVector3 30 0 0) straight3)))
  = Some 3%nat.
Proof.
  apply (addTrackPoint_then_lookup straight3 (THREE.mkVector3 30 0 0)
           Reachable_straight3).
Defined.

(** X8.  In a reachable state, removing the point that [addTrackPoint]
    has just added gives back the track as it was; [pointCounter] is not
    taken back, so the id is spent. *)
Theorem addTrackPoint_then_remove (w : World) (pos : THREE.Vector3) :
  Reachable w ->
  trackPoints (store (removeTrackPoint (point_id (S (pointCounter w)))
                        (addTrackPoint pos w)))
  = trackPoints (store w) /\
  pointCounter (removeTrackPoint (point_id (S (pointCounter w)))
                  (addTrackPoint pos w))
  = S (pointCounter w).
Proof.
  intros Hw. rewrite removeTrackPoint_eq, addTrackPoint_eq.
  cbn [store trackPoints set_trackPoints pointCounter]. split; [|reflexivity].
  rewrite filter_app. simpl.
  replace (has_id (point_id (S (pointCounter w)))
             (mkTrackPoint (point_id (S (pointCounter w))) pos 0))
    with true by (symmetry; apply has_id_true; reflexivity).
  simpl. rewrite app_nil_r. apply filter_all, not_in_ids, next_id_fresh. exact Hw.
Qed.

Lemma addTrackPoint_then_remove_witness :
  trackPoints (store (removeTrackPoint "point-4"
                        (addTrackPoint (THREE.mkVector3 30 0 0) straight3)))
  = trackPoints (store straight3).
Proof.
  apply (addTrackPoint_then_remove straight3 (THREE.mkVector3 30 0 0)
           Reachable_straight3).
Defined.

(** X9.  Once [removeTrackPoint] has run, the id resolves to nothing, on
    any state: a later [createLoopAtPoint], [updateTrackPoint] or
    [updateTrackPointTilt] on that id leaves the state as it is. *)
Theorem removed_id_is_gone (w : World) (i : string) (pos : THREE.Vector3) (t : R) :
  resolve i (trackPoints (store (removeTrackPoint i w))) = None /\
  createLoopAtPoint i (removeTrackPoint i w) = Some (removeTrackPoint i w) /\
  updateTrackPoint i pos (removeTrackPoint i w) = removeTrackPoint i w /\
  updateTrackPointTilt i t (removeTrackPoint i w) = removeTrackPoint i w.
Proof.
  assert (Hgone : forall p,
            In p (trackPoints (store (removeTrackPoint i w))) -> id p <> i).
  { intros p Hp. rewrite removeTrackPoint_eq in Hp.
    cbn [store trackPoints] in Hp. apply filter_In in Hp.
    destruct Hp as [_ Hp]. apply negb_true_iff in Hp.
    apply has_id_false. exact Hp. }
  assert (Hres : resolve i (trackPoints (store (removeTrackPoint i w))) = None)
    by (apply resolve_None; exact Hgone).
  split; [exact Hres|]. split.
  - apply createLoopAtPoint_guard. intros k Ek. congruence.
  - set (w' := removeTrackPoint i w) in *.
    rewrite updateTrackPoint_eq, updateTrackPointTilt_eq.
    rewrite !map_unmatched by exact Hgone.
    rewrite set_trackPoints_same, world_eta. split; reflexivity.
Qed.

(** ** Steps and runs of operations *)

Ltac same_track w :=
  split; [lia|]; split; [lia|]; split;
  [intros j Hj; left; exact Hj | intros j Hj; exact Hj].

(** Where the ids of the track come from after one operation: from the
    track before, or from the values [pointCounter] took in between.  The
    last part says which operations keep every id on the track. *)
Lemma exec_ids_origin (o : Op) (w w' : World) :
  exec o w = Some w' ->
  (pointCounter w <= pointCounter w')%nat /\
  (pointCounter w' <= pointCounter w + 7)%nat /\
  (forall j, In j (ids (trackPoints (store w'))) ->
     In j (ids (trackPoints (store w))) \/
     exists k, (pointCounter w < k <= pointCounter w')%nat /\ j = point_id k) /\
  (match o with RemoveTrackPoint _ | ClearTrack => True
   | _ => forall j, In j (ids (trackPoints (store w))) ->
                    In j (ids (trackPoints (store w')))
   end).
Proof.
  intros H. destruct o; unfold exec in H; try (injection H as <-);
    try solve [simpl; same_track w].
  - rewrite addTrackPoint_eq. cbn [store trackPoints set_trackPoints pointCounter].
    rewrite ids_app. simpl. split; [lia|]. split; [lia|]. split.
    + intros j Hj. apply in_app_iff in Hj. destruct Hj as [Hj|[<-|[]]];
        [left; exact Hj|right].
      exists (S (pointCounter w)). split; [lia|reflexivity].
    + intros j Hj. apply in_or_app. left. exact Hj.
  - rewrite updateTrackPoint_eq. cbn [store trackPoints set_trackPoints pointCounter].
    rewrite ids_map_same by (intros p; destruct (has_id i p); reflexivity).
    same_track w.
  - rewrite updateTrackPointTilt_eq.
    cbn [store trackPoints set_trackPoints pointCounter].
    rewrite ids_map_same by (intros p; destruct (has_id i p); reflexivity).
    same_track w.
  - rewrite removeTrackPoint_eq. cbn [store trackPoints pointCounter].
    split; [lia|]. split; [lia|]. split; [|exact I].
    intros j Hj. left. eapply ids_filter_incl. exact Hj.
  - destruct (createLoopAtPoint_outcome w w' i H)
      as [->|(k & b & n & f & _ & _ & _ & ->)]; [same_track w|].
    cbn [store trackPoints set_trackPoints pointCounter].
    rewrite ids_loopedTrack. split; [lia|]. split; [lia|]. split.
    + intros j Hj. rewrite !in_app_iff in Hj.
      destruct Hj as [Hj|[Hj|Hj]].
      * left. rewrite <- (ids_firstn_skipn (k + 1)). apply in_or_app. auto.
      * right. apply in_map_iff in Hj. destruct Hj as (m & <- & Hm).
        apply in_seq in Hm. exists m. split; [lia|reflexivity].
      * left. rewrite <- (ids_firstn_skipn (k + 1)). apply in_or_app. auto.
    + intros j Hj. rewrite <- (ids_firstn_skipn (k + 1)) in Hj.
      rewrite !in_app_iff. apply in_app_iff in Hj. tauto.
  - cbn [store trackPoints pointCounter]. simpl.
    split; [lia|]. split; [lia|]. split; [intros j []|exact I].
  - unfold startRide, get. cbv zeta. destruct (2 <=? _)%nat; simpl; same_track w.
Qed.

Lemma run_Reachable (ops : list Op) (w w' : World) :
  Reachable w -> run ops w = Some w' -> Reachable w'.
Proof.
  revert w. induction ops as [|o ops IH]; simpl; intros w Hw H.
  - injection H as <-. exact Hw.
  - destruct (exec o w) as [w1|] eqn:E; [|discriminate].
    apply (IH w1); [|exact H]. apply (Reachable_step o w); assumption.
Qed.

(** X10.  No operation takes [pointCounter] back, and one operation
    advances it by at most 7.  The operations that do not write the track
    (the setters, [selectPoint], [startRide] and [stopRide]) leave both the
    track and [pointCounter] as they were. *)
Theorem exec_counter_and_track (o : Op) (w w' : World) :
  exec o w = Some w' ->
  (pointCounter w <= pointCounter w' <= pointCounter w + 7)%nat /\
  (writes_track o = false ->
     trackPoints (store w') = trackPoints (store w) /\
     pointCounter w' = pointCounter w).
Proof.
  intros H. destruct (exec_ids_origin o w w' H) as (Hlo & Hhi & _).
  split; [lia|]. intros Hframe.
  destruct o; simpl in Hframe; try discriminate; unfold exec in H;
    injection H as <-; try (split; reflexivity).
  unfold startRide, get. cbv zeta. destruct (2 <=? _)%nat; split; reflexivity.
Qed.

Lemma exec_counter_and_track_witness :
  trackPoints (store (stopRide straight3)) = trackPoints (store straight3) /\
  pointCounter (stopRide straight3) = pointCounter straight3.
Proof.
  apply (proj2 (exec_counter_and_track StopRide straight3 (stopRide straight3)
                  eq_refl)).
  reflexivity.
Defined.

(** X11.  A reachable track is never longer than the number of ids minted:
    its length is at most [pointCounter]. *)
Theorem track_length_le_pointCounter (w : World) :
  Reachable w ->
  (List.length (trackPoints (store w)) <= pointCounter w)%nat.
Proof.
  intros Hw. destruct (Reachable_unique_ids w Hw) as [Hnd Hm].
  assert (Hincl : incl (ids (trackPoints (store w)))
                       (map point_id (seq 1 (pointCounter w)))).
  { intros j Hj. destruct (Hm j Hj) as (k & Hk & ->).
    apply in_map, in_seq. lia. }
  apply (NoDup_incl_length Hnd) in Hincl.
  unfold ids in Hincl. rewrite !length_map, length_seq in Hincl. exact Hincl.
Qed.

Lemma track_length_le_pointCounter_witness :
  (List.length (trackPoints (store straight3)) <= pointCounter straight3)%nat.
Proof.
  apply (track_length_le_pointCounter straight3 Reachable_straight3).
Defined.

(** X12.  Ids are never reused: in a reachable state, an id that was
    minted and is no longer on the track (its point was removed, or the
    track was cleared) is on no track that any further run of operations
    produces. *)
Theorem spent_id_never_returns (ops : list Op) (w w' : World) (i : string) :
  Reachable w ->
  minted (pointCounter w) i ->
  ~ In i (ids (trackPoints (store w))) ->
  run ops w = Some w' ->
  ~ In i (ids (trackPoints (store w'))).
Proof.
  revert w. induction ops as [|o ops IH]; simpl; intros w Hw Hminted Hnot H.
  - injection H as <-. exact Hnot.
  - destruct (exec o w) as [w1|] eqn:E; [|discriminate].
    destruct (exec_ids_origin o w w1 E) as (Hlo & _ & Horigin & _).
    apply (IH w1); [| |  |exact H].
    + apply (Reachable_step o w); assumption.
    + apply (minted_mono (pointCounter w)); assumption.
    + intros Hin. destruct (Horigin i Hin) as [Hold|(k & Hk & Ek)]; [auto|].
      destruct Hminted as (m & Hm & Em). rewrite Em in Ek.
      apply point_id_inj in Ek. lia.
Qed.

Lemma spent_id_never_returns_witness :
  ~ In "point-2"%string
      (ids (trackPoints
              (store (addTrackPoint (THREE.mkVector3 5 5 5)
                        (clearTrack straight3))))).
Proof.
  apply (spent_id_never_returns [AddTrackPoint (THREE.mkVector3 5 5 5)]
           (clearTrack straight3) _ "point-2").
  - apply (Reachable_step ClearTrack straight3);
      [apply Reachable_straight3|reflexivity].
  - exists 2%nat. split; [simpl; lia|reflexivity].
  - intros [].
  - reflexivity.
Defined.

(** X13.  Every operation but [selectPoint] keeps the selection sound: if
    the selection names nothing or a point of the track before, it does so
    after.  In particular [removeTrackPoint] and [clearTrack] never leave a
    selection that names a removed point, and [createLoopAtPoint] keeps the
    selected point on the track. *)
Theorem selection_stays_on_track (o : Op) (w w' : World) :
  selection_on_track (store w) ->
  (forall i, o <> SelectPoint i) ->
  exec o w = Some w' ->
  selection_on_track (store w').
Proof.
  intros Hsel Hop H.
  destruct (exec_ids_origin o w w' H) as (_ & _ & _ & Hkeep).
  assert (Hsame : selectedPointId (store w') = selectedPointId (store w) ->
                  (forall j, In j (ids (trackPoints (store w))) ->
                             In j (ids (trackPoints (store w')))) ->
                  selection_on_track (store w')).
  { intros Es Hk. unfold selection_on_track in *. rewrite Es.
    destruct (selectedPointId (store w)); auto. }
  destruct o; unfold exec in H;
    try (injection H as <-; apply Hsame; [reflexivity|exact Hkeep]).
  - injection H as <-. rewrite removeTrackPoint_eq.
    unfold selection_on_track in *. cbn [store selectedPointId trackPoints].
    destruct (selected_is i (selectedPointId (store w))) eqn:E; [exact I|].
    apply selected_is_false in E.
    destruct (selectedPointId (store w)) as [s|]; [|exact I].
    unfold ids in *. apply in_map_iff in Hsel. destruct Hsel as (p & Hp & Hin).
    apply in_map_iff. exists p. split; [exact Hp|].
    apply filter_In. split; [exact Hin|].
    apply negb_true_iff, has_id_false. congruence.
  - destruct (createLoopAtPoint_outcome w w' i H)
      as [->|(k & b & n & f & _ & _ & _ & E)]; [exact Hsel|].
    apply Hsame; [rewrite E; reflexivity|exact Hkeep].
  - exfalso. apply (Hop i). reflexivity.
  - injection H as <-. exact I.
  - injection H as <-. unfold startRide, get in *. cbv zeta in *.
    destruct (2 <=? _)%nat; [apply Hsame; [reflexivity|exact Hkeep]|exact Hsel].
Qed.

Lemma selection_stays_on_track_witness :
  selection_on_track
    (store (removeTrackPoint "point-2" (selectPoint (Some "point-2"%string) straight3))).
Proof.
  apply (selection_stays_on_track (RemoveTrackPoint "point-2")
           (selectPoint (Some "point-2"%string) straight3)).
  - simpl. right. left. reflexivity.
  - discriminate.
  - reflexivity.
Defined.

(** ** More on the loop generator (lines 112-206) *)

Lemma findIndex_app_l {A : Type} (f : A -> bool) (l1 l2 : list A) (k : nat) :
  findIndex f l1 = Some k -> findIndex f (l1 ++ l2) = Some k.
Proof.
  revert k. induction l1 as [|a l1 IH]; simpl; intros k H; [discriminate|].
  destruct (f a); [exact H|].
  destruct (findIndex f l1) as [m|]; simpl in H; [|discriminate].
  rewrite (IH m eq_refl). exact H.
Qed.

Lemma findIndex_firstn {A : Type} (f : A -> bool) (l : list A) (k : nat) :
  findIndex f l = Some k -> findIndex f (firstn (k + 1) l) = Some k.
Proof.
  revert k. induction l as [|a l IH]; simpl; intros k H; [discriminate|].
  destruct (f a) eqn:Fa.
  - injection H as <-. simpl. rewrite Fa. reflexivity.
  - destruct (findIndex f l) as [m|] eqn:E; simpl in H; [|discriminate].
    injection H as <-. simpl. rewrite Fa, (IH m eq_refl). reflexivity.
Qed.

Lemma resolve_loopedTrack (w : World) (i : string) (pointIndex : nat)
    (basePoint nextPoint : TrackPoint) (forward : THREE.Vector3) :
  resolve i (trackPoints (store w)) = Some pointIndex ->
  resolve i (loopedTrack w pointIndex basePoint nextPoint forward) = Some pointIndex.
Proof.
  intros Hres. unfold loopedTrack, splicedTrack, resolve.
  apply findIndex_app_l.
  change (resolve i (map (translateAlong (leftOf forward) 10)
                       (firstn (pointIndex + 1) (trackPoints (store w))))
          = Some pointIndex).
  rewrite resolve_map_same by reflexivity.
  apply findIndex_firstn. exact Hres.
Qed.

(** X14.  A loop insertion keeps its target where it was: the id still
    resolves to the same index afterwards.  So [createLoopAtPoint] can be
    called again on the same id, and then inserts a second loop: the track
    is 14 points longer and [pointCounter] 14 higher than at the start. *)
Theorem createLoopAtPoint_twice (w : World) (i : string) (pointIndex : nat) :
  resolve i (trackPoints (store w)) = Some pointIndex ->
  (pointIndex + 1 < List.length (trackPoints (store w)))%nat ->
  exists w1 w2,
    createLoopAtPoint i w = Some w1 /\
    resolve i (trackPoints (store w1)) = Some pointIndex /\
    createLoopAtPoint i w1 = Some w2 /\
    List.length (trackPoints (store w2)) =
      (List.length (trackPoints (store w)) + 14)%nat /\
    pointCounter w2 = (pointCounter w + 14)%nat.
Proof.
  intros Hres Hlt.
  destruct (createLoopAtPoint_success w i pointIndex Hres Hlt)
    as (b & n & f & Hins).
  pose proof Hins as (_ & _ & _ & E1).
  set (w1 := {| pointCounter := pointCounter w + 7;
                store := set_trackPoints (loopedTrack w pointIndex b n f) (store w) |})
    in *.
  assert (Hres1 : resolve i (trackPoints (store w1)) = Some pointIndex)
    by (apply resolve_loopedTrack; exact Hres).
  assert (Hlen1 : List.length (trackPoints (store w1)) =
                  (List.length (trackPoints (store w)) + 7)%nat).
  { subst w1. cbn [store trackPoints set_trackPoints]. unfold loopedTrack.
    rewrite length_splicedTrack, length_loopPointsOf. reflexivity. }
  assert (Hlt1 : (pointIndex + 1 < List.length (trackPoints (store w1)))%nat)
    by lia.
  destruct (createLoopAtPoint_success w1 i pointIndex Hres1 Hlt1)
    as (b1 & n1 & f1 & (_ & _ & _ & E2)).
  exists w1. eexists. split; [exact E1|]. split; [exact Hres1|].
  split; [exact E2|].
  cbn [store trackPoints set_trackPoints pointCounter]. unfold loopedTrack at 1.
  rewrite length_splicedTrack, length_loopPointsOf, Hlen1.
  subst w1. cbn [pointCounter]. split; lia.
Qed.

Lemma createLoopAtPoint_twice_witness :
  exists w1 w2,
    createLoopAtPoint "point-2" straight3 = Some w1 /\
    createLoopAtPoint "point-2" w1 = Some w2 /\
    List.length (trackPoints (store w2)) = 17%nat.
Proof.
  destruct (createLoopAtPoint_twice straight3 "point-2" 1 eq_refl (le_n 3))
    as (w1 & w2 & E1 & _ & E2 & Hlen & _).
  exists w1, w2. split; [exact E1|]. split; [exact E2|exact Hlen].
Defined.

Lemma length_squared (v : THREE.Vector3) :
  THREE.length v * THREE.length v =
  THREE.x v * THREE.x v + THREE.y v * THREE.y v + THREE.z v * THREE.z v.
Proof. unfold THREE.length. apply sqrt_sqrt. nra. Qed.

(** The forward direction is a horizontal unit vector. *)
Lemma forwardAt_unit (points : list TrackPoint) (pointIndex : nat)
    (pos forward : THREE.Vector3) :
  forwardAt points pointIndex pos = Some forward ->
  THREE.y forward = 0 /\
  THREE.x forward * THREE.x forward + THREE.z forward * THREE.z forward = 1.
Proof.
  unfold forwardAt. destruct pointIndex as [|before].
  - intros H. injection H as <-. simpl. split; lra.
  - destruct (nth_error points before) as [prevPoint|]; [|discriminate].
    cbv zeta.
    set (d := THREE.set_y (THREE.sub (THREE.clone pos) (position prevPoint)) 0).
    assert (Hy : THREE.y d = 0) by reflexivity. clearbody d.
    destruct (Rlt_dec (THREE.length d) 0.1) as [Hshort|Hlong]; intros H.
    + rewrite normalize_unit_x in H. injection H as <-. simpl. split; lra.
    + assert (Hpos : 0 < THREE.length d) by lra.
      rewrite (normalize_of_length d (THREE.length d) Hpos eq_refl) in H.
      injection H as <-. cbn [THREE.x THREE.y THREE.z].
      pose proof (length_squared d) as Hsq.
      rewrite Hy in *.
      split; [field; lra|].
      replace (THREE.x d / THREE.length d * (THREE.x d / THREE.length d)
               + THREE.z d / THREE.length d * (THREE.z d / THREE.length d))
        with ((THREE.x d * THREE.x d + 0 * 0 + THREE.z d * THREE.z d)
              / (THREE.length d * THREE.length d))
        by (field; lra).
      rewrite <- Hsq. field. lra.
Qed.

Lemma leftOf_unit (forward : THREE.Vector3) :
  THREE.y forward = 0 ->
  THREE.x forward * THREE.x forward + THREE.z forward * THREE.z forward = 1 ->
  leftOf forward = THREE.mkVector3 (THREE.z forward) 0 (- THREE.x forward).
Proof.
  intros Hy Hunit. unfold leftOf. rewrite crossVectors_up.
  rewrite (normalize_of_length _ 1).
  - cbn [THREE.x THREE.y THREE.z]. f_equal; field.
  - lra.
  - unfold THREE.length. cbn [THREE.x THREE.y THREE.z].
    replace (THREE.z forward * THREE.z forward + 0 * 0
             + - THREE.x forward * - THREE.x forward) with 1 by lra.
    apply sqrt_1.
Qed.

(** X15.  The frame of a loop insertion is orthonormal and horizontal:
    [forward] and [left] have height 0 and length 1, [left] is
    [(forward.z, 0, -forward.x)], and the two are perpendicular. *)
Theorem loop_frame_orthonormal (w : World) (i : string) (pointIndex : nat) :
  resolve i (trackPoints (store w)) = Some pointIndex ->
  (pointIndex + 1 < List.length (trackPoints (store w)))%nat ->
  exists basePoint nextPoint forward,
    loop_inserted w i pointIndex basePoint nextPoint forward /\
    THREE.y forward = 0 /\
    THREE.length forward = 1 /\
    leftOf forward = THREE.mkVector3 (THREE.z forward) 0 (- THREE.x forward) /\
    THREE.length (leftOf forward) = 1 /\
    THREE.x (leftOf forward) * THREE.x forward
    + THREE.y (leftOf forward) * THREE.y forward
    + THREE.z (leftOf forward) * THREE.z forward = 0.
Proof.
  intros Hres Hlt.
  destruct (createLoopAtPoint_success w i pointIndex Hres Hlt)
    as (b & n & f & Hins).
  exists b, n, f. split; [exact Hins|].
  destruct Hins as (_ & _ & Efwd & _).
  destruct (forwardAt_unit _ _ _ _ Efwd) as [Hy Hunit].
  pose proof (leftOf_unit f Hy Hunit) as Hleft.
  split; [exact Hy|]. split; [|split; [exact Hleft|split]].
  - unfold THREE.length. rewrite Hy.
    replace (THREE.x f * THREE.x f + 0 * 0 + THREE.z f * THREE.z f) with 1 by lra.
    apply sqrt_1.
  - rewrite Hleft. unfold THREE.length. cbn [THREE.x THREE.y THREE.z].
    replace (THREE.z f * THREE.z f + 0 * 0 + - THREE.x f * - THREE.x f)
      with 1 by lra.
    apply sqrt_1.
  - rewrite Hleft. cbn [THREE.x THREE.y THREE.z]. ring.
Qed.

Lemma loop_frame_orthonormal_witness :
  exists basePoint nextPoint forward,
    loop_inserted straight3 "point-2" 1 basePoint nextPoint forward /\
    THREE.length (leftOf forward) = 1.
Proof.
  destruct (loop_frame_orthonormal straight3 "point-2" 1 eq_refl (le_n 3))
    as (b & n & f & Hins & _ & _ & _ & Hlen & _).
  exists b, n, f. split; assumption.
Defined.

Lemma nth_error_loopedTrack_loop (w : World) (pointIndex : nat)
    (basePoint nextPoint : TrackPoint) (forward : THREE.Vector3) (k : nat) :
  (pointIndex + 1 <= List.length (trackPoints (store w)))%nat ->
  (1 <= k <= 7)%nat ->
  nth_error (loopedTrack w pointIndex basePoint nextPoint forward) (pointIndex + k) =
  Some (loopPoint (leftOf forward)
          (loopCenter (entryAnchor (leftOf forward) basePoint)
                      (exitAnchor (leftOf forward) nextPoint))
          (pointCounter w) k).
Proof.
  intros Hle Hk. unfold loopedTrack.
  replace (pointIndex + k)%nat with (pointIndex + 1 + (k - 1))%nat by lia.
  rewrite nth_error_splicedTrack_loop by (rewrite ?length_loopPointsOf; lia).
  apply nth_error_loopPointsOf. exact Hk.
Qed.

(** X16.  The 7 loop points lie on a circle of radius 8 around the loop
    center: the squared distance of each from the center is 64. *)
Theorem loop_points_at_radius (w : World) (i : string) (pointIndex : nat) :
  resolve i (trackPoints (store w)) = Some pointIndex ->
  (pointIndex + 1 < List.length (trackPoints (store w)))%nat ->
  exists basePoint nextPoint forward,
    loop_inserted w i pointIndex basePoint nextPoint forward /\
    let left := leftOf forward in
    let center := loopCenter (entryAnchor left basePoint) (exitAnchor left nextPoint) in
    forall k, (1 <= k <= 7)%nat ->
      exists q,
        nth_error (loopedTrack w pointIndex basePoint nextPoint forward)
          (pointIndex + k) = Some q /\
        (THREE.x (position q) - THREE.x center) * (THREE.x (position q) - THREE.x center)
        + (THREE.y (position q) - THREE.y center) * (THREE.y (position q) - THREE.y center)
        + (THREE.z (position q) - THREE.z center) * (THREE.z (position q) - THREE.z center)
        = loopRadius * loopRadius /\
        loopRadius * loopRadius = 64.
Proof.
  intros Hres Hlt.
  destruct (createLoopAtPoint_success w i pointIndex Hres Hlt)
    as (b & n & f & Hins).
  exists b, n, f. split; [exact Hins|].
  destruct Hins as (_ & _ & Efwd & _).
  destruct (forwardAt_unit _ _ _ _ Efwd) as [Hy Hunit].
  pose proof (leftOf_unit f Hy Hunit) as Hleft.
  intros left center k Hk.
  eexists. split; [apply nth_error_loopedTrack_loop; [lia|exact Hk]|].
  rewrite position_loopPoint. fold left. fold center.
  unfold arcAround, arcPosition. cbn [THREE.x THREE.y THREE.z].
  subst left. rewrite Hleft. cbn [THREE.x THREE.y THREE.z].
  generalize (INR k / 8 * (2 * PI)). intros a.
  pose proof (sin2_cos2 a) as Hsc. unfold Rsqr in Hsc.
  unfold loopRadius. split; [|lra].
  clearbody center. nra.
Qed.

Lemma loop_points_at_radius_witness :
  exists basePoint nextPoint forward q,
    loop_inserted straight3 "point-2" 1 basePoint nextPoint forward /\
    nth_error (loopedTrack straight3 1 basePoint nextPoint forward) (1 + 3) = Some q.
Proof.
  destruct (loop_points_at_radius straight3 "point-2" 1 eq_refl (le_n 3))
    as (b & n & f & Hins & Hall).
  destruct (Hall 3%nat (conj (le_S 1 2 (le_S 1 1 (le_n 1)))
                             (le_S 3 6 (le_S 3 5 (le_S 3 4 (le_S 3 3 (le_n 3)))))))
    as (q & Hq & _).
  exists b, n, f, q. split; assumption.
Defined.

(** X17.  The loop center stands over the midpoint of the target and its
    successor as they were before the shift, 8 above the target.  Every
    loop point is between the target's height and 16 above it; the second
    loop point is the top, straight above the center, and the sixth is
    the bottom, at the target's height straight below the center. *)
Theorem loop_center_and_heights (w : World) (i : string) (pointIndex : nat) :
  resolve i (trackPoints (store w)) = Some pointIndex ->
  (pointIndex + 1 < List.length (trackPoints (store w)))%nat ->
  exists basePoint nextPoint forward,
    loop_inserted w i pointIndex basePoint nextPoint forward /\
    let left := leftOf forward in
    let center := loopCenter (entryAnchor left basePoint) (exitAnchor left nextPoint) in
    let track := loopedTrack w pointIndex basePoint nextPoint forward in
    center =
      THREE.mkVector3
        ((THREE.x (position basePoint) + THREE.x (position nextPoint)) / 2)
        (THREE.y (position basePoint) + 8)
        ((THREE.z (position basePoint) + THREE.z (position nextPoint)) / 2) /\
    (forall k, (1 <= k <= 7)%nat ->
       exists q, nth_error track (pointIndex + k) = Some q /\
                 THREE.y (position basePoint) <= THREE.y (position q)
                 <= THREE.y (position basePoint) + 16) /\
    option_map position (nth_error track (pointIndex + 2)) =
      Some (THREE.mkVector3 (THREE.x center) (THREE.y (position basePoint) + 16)
                            (THREE.z center)) /\
    option_map position (nth_error track (pointIndex + 6)) =
      Some (THREE.mkVector3 (THREE.x center) (THREE.y (position basePoint))
                            (THREE.z center)).
Proof.
  intros Hres Hlt.
  destruct (createLoopAtPoint_success w i pointIndex Hres Hlt)
    as (b & n & f & Hins).
  exists b, n, f. split; [exact Hins|].
  intros left center track.
  assert (Hc : center =
               THREE.mkVector3
                 ((THREE.x (position b) + THREE.x (position n)) / 2)
                 (THREE.y (position b) + 8)
                 ((THREE.z (position b) + THREE.z (position n)) / 2)).
  { subst center. clearbody left.
    unfold loopCenter, entryAnchor, exitAnchor, shiftIncoming, shiftOutgoing,
      lateralOffset, loopRadius.
    cbn [position THREE.x THREE.y THREE.z]. f_equal; lra. }
  assert (Hat : forall k, (1 <= k <= 7)%nat ->
            nth_error track (pointIndex + k) =
            Some (loopPoint left center (pointCounter w) k))
    by (intros k Hk; apply nth_error_loopedTrack_loop; [lia|exact Hk]).
  assert (HcY : THREE.y center = THREE.y (position b) + 8)
    by (rewrite Hc; reflexivity).
  clearbody track center left.
  split; [exact Hc|]. split; [|split].
  - intros k Hk. eexists. split; [apply Hat; exact Hk|].
    rewrite position_loopPoint. unfold arcAround, arcPosition, loopRadius.
    cbn [THREE.y]. rewrite HcY.
    pose proof (SIN_bound (INR k / 8 * (2 * PI))) as [Hlo Hhi]. lra.
  - rewrite (Hat 2%nat) by lia. cbn [option_map]. rewrite position_loopPoint.
    replace (INR 2 / 8 * (2 * PI)) with (PI / 2) by (simpl; lra).
    unfold arcAround, arcPosition, loopRadius. rewrite cos_PI2, sin_PI2, HcY.
    do 2 f_equal; lra.
  - rewrite (Hat 6%nat) by lia. cbn [option_map]. rewrite position_loopPoint.
    replace (INR 6 / 8 * (2 * PI)) with (3 * (PI / 2)) by (simpl; lra).
    unfold arcAround, arcPosition, loopRadius. rewrite cos_3PI2, sin_3PI2, HcY.
    do 2 f_equal; lra.
Qed.

Lemma loop_center_and_heights_witness :
  exists basePoint nextPoint forward,
    loop_inserted straight3 "point-2" 1 basePoint nextPoint forward /\
    loopCenter (entryAnchor (leftOf forward) basePoint)
               (exitAnchor (leftOf forward) nextPoint) =
    THREE.mkVector3
      ((THREE.x (position basePoint) + THREE.x (position nextPoint)) / 2)
      (THREE.y (position basePoint) + 8)
      ((THREE.z (position basePoint) + THREE.z (position nextPoint)) / 2).
Proof.
  destruct (loop_center_and_heights straight3 "point-2" 1 eq_refl (le_n 3))
    as (b & n & f & Hins & Hc & _).
  exists b, n, f. split; assumption.
Defined.

(** ** Riding (lines 220-229) *)

(** X18.  [stopRide] always ends in build mode, not riding, with progress
    0, and keeps the track and the selection.  Starting a ride and stopping
    it is the same as stopping alone, whatever the track; [startRide] and
    [stopRide] are each idempotent. *)
Theorem ride_start_stop (w : World) :
  (mode (store (stopRide w)) = build /\
   isRiding (store (stopRide w)) = false /\
   rideProgress (store (stopRide w)) = 0 /\
   trackPoints (store (stopRide w)) = trackPoints (store w) /\
   selectedPointId (store (stopRide w)) = selectedPointId (store w)) /\
  stopRide (startRide w) = stopRide w /\
  startRide (startRide w) = startRide w /\
  stopRide (stopRide w) = stopRide w.
Proof.
  split; [repeat split|].
  unfold startRide, get. cbv zeta.
  destruct (2 <=? List.length (trackPoints (store w)))%nat eqn:E.
  - split; [reflexivity|]. split; [|reflexivity].
    cbn [set merge fold_left assign store trackPoints set_mode set_isRiding
         set_rideProgress].
    rewrite E. reflexivity.
  - split; [reflexivity|]. split; [|reflexivity]. rewrite E. reflexivity.
Qed.

(** ** The build camera (BuildCamera.tsx, lines 19-33) *)

(** X19.  The build camera renders its orbit controls exactly when the
    mode is not ride.  So there are none after a [startRide] that found 2
    points, none after a [clearTrack] during a ride (the mode stays ride),
    and there always are after [stopRide].  When rendered, the controls
    are enabled exactly when no point is being dragged, zoom between the
    distances 2 and 500, and keep the camera above the horizon (a polar
    angle below a quarter turn). *)
Theorem buildCamera_controls (w : World) :
  (BuildCamera.render (store w) = None <-> mode (store w) = ride) /\
  ((2 <= List.length (trackPoints (store w)))%nat ->
     BuildCamera.render (store (startRide w)) = None) /\
  (mode (store w) = ride -> BuildCamera.render (store (clearTrack w)) = None) /\
  (exists props,
     BuildCamera.render (store (stopRide w)) = Some props /\
     BuildCamera.enabled props = negb (isDraggingPoint (store w))) /\
  (forall dragging,
     mode (store w) <> ride ->
     exists props,
       BuildCamera.render (store (setIsDraggingPoint dragging w)) = Some props /\
       BuildCamera.enabled props = negb dragging) /\
  (forall props,
     BuildCamera.render (store w) = Some props ->
     BuildCamera.enabled props = negb (isDraggingPoint (store w)) /\
     BuildCamera.minDistance props < BuildCamera.maxDistance props /\
     0 < BuildCamera.maxPolarAngle props < PI / 2).
Proof.
  split; [|split; [|split; [|split; [|split]]]].
  - unfold BuildCamera.render. destruct (mode (store w)); split;
      intros H; try reflexivity; discriminate.
  - intros Hlen. unfold startRide, get. cbv zeta.
    replace (2 <=? List.length (trackPoints (store w)))%nat with true
      by (symmetry; apply Nat.leb_le; exact Hlen).
    reflexivity.
  - intros Hmode. unfold BuildCamera.render. simpl. rewrite Hmode. reflexivity.
  - eexists. split; reflexivity.
  - intros dragging Hmode. unfold BuildCamera.render. simpl.
    destruct (mode (store w)); [|congruence|]; eexists; split; reflexivity.
  - intros props H. unfold BuildCamera.render in H. pose proof PI2_1 as Hpi.
    destruct (mode (store w)); try discriminate; injection H as <-;
      cbn; (split; [reflexivity|split; lra]).
Qed.

Lemma buildCamera_controls_witness :
  BuildCamera.render (store (startRide straight3)) = None /\
  BuildCamera.render (store (clearTrack (startRide straight3))) = None /\
  (exists props,
     BuildCamera.render (store (setIsDraggingPoint true straight3)) = Some props /\
     BuildCamera.enabled props = false).
Proof.
  split; [|split].
  - apply (proj1 (proj2 (buildCamera_controls straight3))). simpl. lia.
  - apply (proj1 (proj2 (proj2 (buildCamera_controls (startRide straight3))))).
    reflexivity.
  - apply (proj1 (proj2 (proj2 (proj2 (proj2 (buildCamera_controls straight3)))))
             true).
    discriminate.
Defined.

(** ** The setters (lines 66-80, 208 and 214-218) *)

(** X20.  Every setter is [set] with one entry.  Two such calls on
    different fields give the same state in either order; two on the same
    field leave what the later one wrote.  So the setters, [selectPoint]
    and [setCameraTarget] are idempotent and independent of each other. *)
Theorem set_entries_compose (f g : Field) (w : World) :
  (same_field f g = false -> set [f] (set [g] w) = set [g] (set [f] w)) /\
  (same_field f g = true -> set [f] (set [g] w) = set [f] w).
Proof.
  destruct w as [c s]; destruct s; split; intros H;
    destruct f, g; try discriminate H; reflexivity.
Qed.

Lemma set_entries_compose_witness :
  setMode preview (setIsNightMode true straight3) =
    setIsNightMode true (setMode preview straight3) /\
  setRideSpeed 2 (setRideSpeed 3 straight3) = setRideSpeed 2 straight3 /\
  selectPoint None (selectPoint (Some "point-1"%string) straight3) =
    selectPoint None straight3.
Proof.
  split; [|split].
  - apply (proj1 (set_entries_compose (f_mode preview) (f_isNightMode true) straight3)).
    reflexivity.
  - apply (proj2 (set_entries_compose (f_rideSpeed 2) (f_rideSpeed 3) straight3)).
    reflexivity.
  - apply (proj2 (set_entries_compose (f_selectedPointId None)
                    (f_selectedPointId (Some "point-1"%string)) straight3)).
    reflexivity.
Defined.
